(** * Grid reconstruction and crop refinement: a shallow embedding

    The development follows [src/utils/imageProcessor.ts] (grid organizer and
    slice pipeline) and [src/components/CropAdjuster.tsx] (interactive box
    editor).

    Numbers.  The modules [Organizer], [Editor] and [Pipeline] read a
    TypeScript [number] as an exact rational ([Q]): [Math.min], [Math.max] and
    [Math.abs] are [Qmin], [Qmax] and [Qabs].  They carry the facts about
    order, counting and control flow.  The module [Numeric] has the handlers
    of the editor once more over any number system ([Number]), with two
    instances: binary64 doubles ([Binary64], the numbers the program computes
    with, evaluated by the kernel's primitive floats) and rationals with a
    rounding function ([Rounded]: every operation returns the rounding of its
    exact result).  What depends on the arithmetic is stated there: facts
    that hold for every number system in [NumericLaws], bounds that hold up
    to rounding in [RoundedFacts], and runs in doubles in [Binary64Facts]. *)

From Stdlib Require Import String Ascii.
From Stdlib Require Import ZArith QArith Qminmax Qabs Lqa.
From Stdlib Require Import List Bool Arith Lia.
From Stdlib Require Import Permutation Sorted.
From Stdlib Require Import Floats.PrimFloat Numbers.Cyclic.Int63.Uint63.
Import ListNotations.

Open Scope Q_scope.

(* ================================================================== *)
(** * Part I: definitions                                              *)
(* ================================================================== *)

(** ** Numbers and arrays *)

(** [a < b] on numbers, as a boolean test. *)
Definition Qltb (a b : Q) : bool := negb (Qle_bool b a).

(** [Array.prototype.sort(compareFn)].  ECMAScript requires the sort to be
    stable; with a consistent comparator the result is the one computed here:
    an element is placed in front of the first later element it does not
    exceed ([compareFn a b <= 0]), so equal elements keep their order. *)
Fixpoint sort_insert {A : Type} (compareFn : A -> A -> Q) (a : A) (l : list A)
  : list A :=
  match l with
  | [] => [a]
  | b :: l' =>
      if Qle_bool (compareFn a b) 0 then a :: b :: l'
      else b :: sort_insert compareFn a l'
  end.

Definition Array_sort {A : Type} (compareFn : A -> A -> Q) (l : list A)
  : list A :=
  fold_right (sort_insert compareFn) [] l.

(** [Array.prototype.map] with the index as second callback argument;
    [start] is the index of the first element. *)
Fixpoint mapi_from {A B : Type} (start : nat) (f : A -> nat -> B) (l : list A)
  : list B :=
  match l with
  | [] => []
  | a :: l' => f a start :: mapi_from (S start) f l'
  end.

Definition mapi {A B : Type} (f : A -> nat -> B) (l : list A) : list B :=
  mapi_from 0 f l.

(** [Array.prototype.filter] with the index as second callback argument. *)
Fixpoint filteri_from {A : Type} (start : nat) (f : A -> nat -> bool)
  (l : list A) : list A :=
  match l with
  | [] => []
  | a :: l' =>
      if f a start then a :: filteri_from (S start) f l'
      else filteri_from (S start) f l'
  end.

Definition filteri {A : Type} (f : A -> nat -> bool) (l : list A) : list A :=
  filteri_from 0 f l.

(** ** Bounding boxes ([imageProcessor.ts], interface [BoundingBox]) *)

Record BoundingBox : Type := mkBox
  { ymin : Q; xmin : Q; ymax : Q; xmax : Q }.

(** ** Grid organizer ([imageProcessor.ts], [organizeBoxes]) *)

Module Organizer.

(** An element of [pixelBoxes]: the spread [...b] is the field [bbox], followed
    by the pixel-space fields. *)
Record PixelBox : Type := mkPixelBox
  { bbox : BoundingBox;
    y : Q; x : Q; w : Q; h : Q; cy : Q; cx : Q }.

Definition toPixel (width height : Q) (b : BoundingBox) : PixelBox :=
  {| bbox := b;
     y := (ymin b / 1000) * height;
     x := (xmin b / 1000) * width;
     w := ((xmax b - xmin b) / 1000) * width;
     h := ((ymax b - ymin b) / 1000) * height;
     cy := ((ymin b + ymax b) / 2000) * height;
     cx := ((xmin b + xmax b) / 2000) * width |}.

(** The test of the clustering loop: [Math.abs(box.cy - currentRowY) <
    box.h * 0.5]. *)
Definition sameRow (box : PixelBox) (currentRowY : Q) : bool :=
  Qltb (Qabs (cy box - currentRowY)) (h box * 0.5).

(** The [for] loop over [pixelBoxes[1..]], with its three mutable variables
    [rows], [currentRow] and [currentRowY]; the final [rows.push(currentRow)]
    is the base case. *)
Fixpoint clusterLoop (rows : list (list PixelBox)) (currentRow : list PixelBox)
  (currentRowY : Q) (rest : list PixelBox) : list (list PixelBox) :=
  match rest with
  | [] => rows ++ [currentRow]
  | box :: rest' =>
      if sameRow box currentRowY
      then clusterLoop rows (currentRow ++ [box]) currentRowY rest'
      else clusterLoop (rows ++ [currentRow]) [box] (cy box) rest'
  end.

Definition clusterRows (pixelBoxes : list PixelBox) : list (list PixelBox) :=
  match pixelBoxes with
  | [] => []
  | first :: rest => clusterLoop [] [first] (cy first) rest
  end.

(** An element of [sortedBoxes]. *)
Record Placed : Type := mkPlaced
  { box : PixelBox; row : nat; col : nat }.

(** [rows.forEach((rowItems, rowIndex) => ...)], threading [maxCols] and
    [sortedBoxes]. *)
Fixpoint forEachRow (rows : list (list PixelBox)) (rowIndex : nat)
  (maxCols : nat) (sortedBoxes : list Placed) : nat * list Placed :=
  match rows with
  | [] => (maxCols, sortedBoxes)
  | rowItems :: rows' =>
      let rowItems := Array_sort (fun a b => cx a - cx b) rowItems in
      let maxCols :=
        if (maxCols <? length rowItems)%nat then length rowItems
        else maxCols in
      let sortedBoxes :=
        sortedBoxes
        ++ mapi (fun box colIndex =>
                   {| box := box; row := rowIndex; col := colIndex |})
             rowItems in
      forEachRow rows' (S rowIndex) maxCols sortedBoxes
  end.

Record Organized : Type := mkOrganized
  { sortedBoxes : list Placed; rows : nat; cols : nat }.

Definition organizeBoxes (boxes : list BoundingBox) (width height : Q)
  : Organized :=
  let pixelBoxes := map (toPixel width height) boxes in
  let pixelBoxes := Array_sort (fun a b => cy a - cy b) pixelBoxes in
  let rows := clusterRows pixelBoxes in
  let '(maxCols, sortedBoxes) := forEachRow rows 0 0 [] in
  {| sortedBoxes := sortedBoxes; rows := length rows; cols := maxCols |}.

(** Uniform grids, for the statements.  A grid has an origin, a tile size
    and the gaps between neighbouring tiles, all on the 0-1000 scale; the tile
    in row [r] and column [c] is [gridBox g r c]. *)
Record UniformGrid : Type := mkGrid
  { originX : Q; originY : Q; tileW : Q; tileH : Q; gapX : Q; gapY : Q }.

Definition Qnat (n : nat) : Q := inject_Z (Z.of_nat n).

Definition gridBox (g : UniformGrid) (r c : nat) : BoundingBox :=
  {| ymin := originY g + Qnat r * (tileH g + gapY g);
     xmin := originX g + Qnat c * (tileW g + gapX g);
     ymax := originY g + Qnat r * (tileH g + gapY g) + tileH g;
     xmax := originX g + Qnat c * (tileW g + gapX g) + tileW g |}.

Definition gridRow (g : UniformGrid) (C r : nat) : list BoundingBox :=
  map (gridBox g r) (seq 0 C).

Definition gridBoxes (g : UniformGrid) (R C : nat) : list BoundingBox :=
  concat (map (gridRow g C) (seq 0 R)).

(** Tiles of positive size that do not overlap: neighbouring rows are a tile
    height plus a gap apart, neighbouring columns a tile width plus a gap. *)
Definition wellSeparated (g : UniformGrid) : Prop :=
  0 < tileW g /\ 0 < tileH g /\ 0 <= gapX g /\ 0 <= gapY g.

(** Pixel height of a tile, and pixel distance between the centres of
    neighbouring rows and of neighbouring columns. *)
Definition tileHpx (height : Q) (g : UniformGrid) : Q :=
  (tileH g / 1000) * height.

Definition pitchYpx (height : Q) (g : UniformGrid) : Q :=
  ((tileH g + gapY g) / 1000) * height.

Definition pitchXpx (width : Q) (g : UniformGrid) : Q :=
  ((tileW g + gapX g) / 1000) * width.

(** The grid in row-major order, each tile with its grid position. *)
Definition placedRow (width height : Q) (g : UniformGrid) (C r : nat)
  : list Placed :=
  map (fun c => {| box := toPixel width height (gridBox g r c);
                   row := r; col := c |})
    (seq 0 C).

Definition rowMajor (width height : Q) (g : UniformGrid) (R C : nat)
  : list Placed :=
  concat (map (placedRow width height g C) (seq 0 R)).

(** A grid of 150 by 150 tiles with gaps of 20, and a shuffled arrangement
    of its first two rows and columns. *)
Definition demoGrid : UniformGrid :=
  {| originX := 100; originY := 200; tileW := 150; tileH := 150;
     gapX := 20; gapY := 20 |}.

Definition shuffled2x2 : list BoundingBox :=
  [gridBox demoGrid 1 1; gridBox demoGrid 0 0;
   gridBox demoGrid 1 0; gridBox demoGrid 0 1].

End Organizer.

(** ** Interactive box editor ([CropAdjuster.tsx]) *)

Module Editor.

Inductive Mode : Type := move | resize.

Inductive Direction : Type := zoomIn | zoomOut.

(** [containerRef.current.getBoundingClientRect()] *)
Record DOMRect : Type := mkRect { rect_width : Q; rect_height : Q }.

(** The component's state variables; [initialBoxes] is the prop of the same
    name. *)
Record EditSession : Type := mkSession
  { initialBoxes : list BoundingBox;
    boxes : list BoundingBox;
    activeBoxIndex : option nat;
    selectedBoxIndex : option nat;
    interactionMode : option Mode;
    resizeHandle : option string;
    startPos : Q * Q;
    startBoxState : option BoundingBox;
    scale : Q }.

(** The state on first render: the [useState] initial values. *)
Definition initialSession (initial : list BoundingBox) : EditSession :=
  {| initialBoxes := initial;
     boxes := initial;
     activeBoxIndex := None;
     selectedBoxIndex := None;
     interactionMode := None;
     resizeHandle := None;
     startPos := (0, 0);
     startBoxState := None;
     scale := 1 |}.

Definition setBoxes (newBoxes : list BoundingBox) (s : EditSession)
  : EditSession :=
  {| initialBoxes := initialBoxes s;
     boxes := newBoxes;
     activeBoxIndex := activeBoxIndex s;
     selectedBoxIndex := selectedBoxIndex s;
     interactionMode := interactionMode s;
     resizeHandle := resizeHandle s;
     startPos := startPos s;
     startBoxState := startBoxState s;
     scale := scale s |}.

Definition setSelectedBoxIndex (i : option nat) (s : EditSession)
  : EditSession :=
  {| initialBoxes := initialBoxes s;
     boxes := boxes s;
     activeBoxIndex := activeBoxIndex s;
     selectedBoxIndex := i;
     interactionMode := interactionMode s;
     resizeHandle := resizeHandle s;
     startPos := startPos s;
     startBoxState := startBoxState s;
     scale := scale s |}.

Definition setScale (k : Q) (s : EditSession) : EditSession :=
  {| initialBoxes := initialBoxes s;
     boxes := boxes s;
     activeBoxIndex := activeBoxIndex s;
     selectedBoxIndex := selectedBoxIndex s;
     interactionMode := interactionMode s;
     resizeHandle := resizeHandle s;
     startPos := startPos s;
     startBoxState := startBoxState s;
     scale := k |}.

(** What a handler leaves behind: the next state; an exception ([Throws]);
    an array with holes ([Sparse]); an array entry that lacks a bound
    ([Incomplete]); or bounds that are infinite or [NaN], which no rational
    number stands for ([NotFinite]). *)
Inductive Outcome : Type :=
| Next (s : EditSession)
| Throws (message : string)
| Sparse
| Incomplete
| NotFinite.

(** [Partial<BoundingBox>] *)
Record PartialBox : Type := mkPartial
  { u_ymin : option Q; u_xmin : option Q;
    u_ymax : option Q; u_xmax : option Q }.

(** [{ ...target, ...updates }] *)
Definition spread (target : BoundingBox) (updates : PartialBox)
  : BoundingBox :=
  {| ymin := match u_ymin updates with Some v => v | None => ymin target end;
     xmin := match u_xmin updates with Some v => v | None => xmin target end;
     ymax := match u_ymax updates with Some v => v | None => ymax target end;
     xmax := match u_xmax updates with Some v => v | None => xmax target end |}.

Fixpoint replaceAt (index : nat) (b : BoundingBox) (l : list BoundingBox)
  : list BoundingBox :=
  match l, index with
  | [], _ => []
  | _ :: l', O => b :: l'
  | a :: l', S i => a :: replaceAt i b l'
  end.

(** [{ ...undefined, ...updates }]: the updates alone, a box when all four
    bounds are there. *)
Definition spreadUndefined (updates : PartialBox) : option BoundingBox :=
  match u_ymin updates, u_xmin updates, u_ymax updates, u_xmax updates with
  | Some y0, Some x0, Some y1, Some x1 =>
      Some {| ymin := y0; xmin := x0; ymax := y1; xmax := x1 |}
  | _, _, _, _ => None
  end.

(** [updateBox].  Inside the array the entry is replaced by the merged box.
    At the index just past the end the array grows by one entry, which holds
    the updates alone; further out it grows with holes in between. *)
Definition updateBox (index : nat) (updates : PartialBox) (s : EditSession)
  : Outcome :=
  match nth_error (boxes s) index with
  | Some target =>
      Next (setBoxes (replaceAt index (spread target updates) (boxes s)) s)
  | None =>
      if (index =? length (boxes s))%nat
      then match spreadUndefined updates with
           | Some b => Next (setBoxes (boxes s ++ [b]) s)
           | None => Incomplete
           end
      else Sparse
  end.

Definition handleResizeStart (index : nat) (handle : string)
  (clientX clientY : Q) (s : EditSession) : Outcome :=
  Next {| initialBoxes := initialBoxes s;
          boxes := boxes s;
          activeBoxIndex := Some index;
          selectedBoxIndex := Some index;
          interactionMode := Some resize;
          resizeHandle := Some handle;
          startPos := (clientX, clientY);
          startBoxState := nth_error (boxes s) index;
          scale := scale s |}.

Definition handleMoveStart (index : nat) (clientX clientY : Q)
  (s : EditSession) : Outcome :=
  Next {| initialBoxes := initialBoxes s;
          boxes := boxes s;
          activeBoxIndex := Some index;
          selectedBoxIndex := Some index;
          interactionMode := Some move;
          resizeHandle := None;
          startPos := (clientX, clientY);
          startBoxState := nth_error (boxes s) index;
          scale := scale s |}.

(** [String.prototype.includes] *)
Definition includes (s sub : string) : bool :=
  match index 0 sub s with Some _ => true | None => false end.

(** The [move] branch of [handlePointerMove]: the object passed to
    [updateBox]. *)
Definition moveUpdates (box : BoundingBox) (deltaX deltaY : Q) : PartialBox :=
  let newXmin :=
    Qmax 0 (Qmin (1000 - (xmax box - xmin box)) (xmin box + deltaX)) in
  let newYmin :=
    Qmax 0 (Qmin (1000 - (ymax box - ymin box)) (ymin box + deltaY)) in
  {| u_xmin := Some newXmin;
     u_ymin := Some newYmin;
     u_xmax := Some (newXmin + (xmax box - xmin box));
     u_ymax := Some (newYmin + (ymax box - ymin box)) |}.

(** The [resize] branch of [handlePointerMove]: the four local variables are
    updated in the order w, e, n, s. *)
Definition resizeUpdates (resizeHandle : string) (box : BoundingBox)
  (deltaX deltaY : Q) : PartialBox :=
  let xmin_ := xmin box in
  let ymin_ := ymin box in
  let xmax_ := xmax box in
  let ymax_ := ymax box in
  let minSize := 20 in
  let xmin_ :=
    if includes resizeHandle "w"
    then Qmin (xmax_ - minSize) (Qmax 0 (xmin box + deltaX))
    else xmin_ in
  let xmax_ :=
    if includes resizeHandle "e"
    then Qmax (xmin_ + minSize) (Qmin 1000 (xmax box + deltaX))
    else xmax_ in
  let ymin_ :=
    if includes resizeHandle "n"
    then Qmin (ymax_ - minSize) (Qmax 0 (ymin box + deltaY))
    else ymin_ in
  let ymax_ :=
    if includes resizeHandle "s"
    then Qmax (ymin_ + minSize) (Qmin 1000 (ymax box + deltaY))
    else ymax_ in
  {| u_xmin := Some xmin_; u_ymin := Some ymin_;
     u_xmax := Some xmax_; u_ymax := Some ymax_ |}.

(** [handlePointerMove].  [container] is [containerRef.current]'s bounding
    rectangle, [None] when the ref is empty.  An empty handle string is
    falsy.  Over a container of width or height 0 the division gives an
    infinite delta or [NaN], which the rationals do not have: the outcome of
    an update computed from it is [NotFinite]. *)
Definition handlePointerMove (clientX clientY : Q) (container : option DOMRect)
  (s : EditSession) : Outcome :=
  match activeBoxIndex s, startBoxState s, container with
  | Some activeIndex, Some box, Some rect =>
      let deltaXPixels := clientX - fst (startPos s) in
      let deltaYPixels := clientY - snd (startPos s) in
      let deltaX := (deltaXPixels / rect_width rect) * 1000 in
      let deltaY := (deltaYPixels / rect_height rect) * 1000 in
      let finite (o : Outcome) : Outcome :=
        if Qeq_bool (rect_width rect) 0 || Qeq_bool (rect_height rect) 0
        then NotFinite else o in
      match interactionMode s, resizeHandle s with
      | Some move, _ =>
          finite (updateBox activeIndex (moveUpdates box deltaX deltaY) s)
      | Some resize, Some handle =>
          if String.eqb handle ""
          then Next s
          else
            finite
              (updateBox activeIndex (resizeUpdates handle box deltaX deltaY) s)
      | _, _ => Next s
      end
  | _, _, _ => Next s
  end.

Definition handlePointerUp (s : EditSession) : Outcome :=
  Next {| initialBoxes := initialBoxes s;
          boxes := boxes s;
          activeBoxIndex := None;
          selectedBoxIndex := selectedBoxIndex s;
          interactionMode := None;
          resizeHandle := None;
          startPos := startPos s;
          startBoxState := startBoxState s;
          scale := scale s |}.

Definition handleDeleteBox (index : nat) (s : EditSession) : Outcome :=
  let s1 :=
    setBoxes (filteri (fun _ i => negb (i =? index)%nat) (boxes s)) s in
  Next (match selectedBoxIndex s with
        | Some selected =>
            if (selected =? index)%nat then setSelectedBoxIndex None s1 else s1
        | None => s1
        end).

Definition handleReset (s : EditSession) : Outcome :=
  Next (setScale 1 (setSelectedBoxIndex None (setBoxes (initialBoxes s) s))).

(** The shift logic of [handleSyncSize] on one axis: the source has one copy
    for ([newXmin], [newXmax]) ("Check Left", "Check Right") and one for
    ([newYmin], [newYmax]) ("Check Top", "Check Bottom"), identical up to the
    variable names. *)
Definition shiftAxis (newMin newMax : Q) : Q * Q :=
  let '(newMin, newMax) :=
    if Qltb newMin 0
    then let diff := 0 - newMin in (newMin + diff, newMax + diff)
    else (newMin, newMax) in
  if Qltb 1000 newMax
  then
    let diff := newMax - 1000 in
    let newMin := newMin + diff in
    let newMax := newMax + diff in
    let newMin := if Qltb newMin 0 then 0 else newMin in
    (newMin, newMax)
  else (newMin, newMax).

(** The callback of [boxes.map] in [handleSyncSize], for a box other than the
    source. *)
Definition syncBox (targetW targetH : Q) (box : BoundingBox) : BoundingBox :=
  let cx := (xmin box + xmax box) / 2 in
  let cy := (ymin box + ymax box) / 2 in
  let newXmin := cx - (targetW / 2) in
  let newXmax := cx + (targetW / 2) in
  let newYmin := cy - (targetH / 2) in
  let newYmax := cy + (targetH / 2) in
  let '(newXmin, newXmax) := shiftAxis newXmin newXmax in
  let '(newYmin, newYmax) := shiftAxis newYmin newYmax in
  {| ymin := newYmin; xmin := newXmin; ymax := newYmax; xmax := newXmax |}.

(** [handleSyncSize].  With a selection past the end of the array
    [sourceBox] is [undefined] and reading [sourceBox.xmax] throws. *)
Definition handleSyncSize (s : EditSession) : Outcome :=
  match selectedBoxIndex s with
  | None => Next s
  | Some selected =>
      match nth_error (boxes s) selected with
      | None => Throws "TypeError"
      | Some sourceBox =>
          let targetW := xmax sourceBox - xmin sourceBox in
          let targetH := ymax sourceBox - ymin sourceBox in
          let newBoxes :=
            mapi (fun box idx =>
                    if (idx =? selected)%nat then box
                    else syncBox targetW targetH box)
              (boxes s) in
          Next (setBoxes newBoxes s)
      end
  end.

Definition handleZoom (direction : Direction) (s : EditSession) : Outcome :=
  let prev := scale s in
  let delta := match direction with zoomIn => 0.25 | zoomOut => -0.25 end in
  Next (setScale (Qmin (Qmax 0.5 (prev + delta)) 4) s).

Definition handleWheel (ctrlKey : bool) (deltaY : Q) (s : EditSession)
  : Outcome :=
  if ctrlKey
  then let delta := deltaY * -0.002 in
       Next (setScale (Qmin (Qmax 0.5 (scale s + delta)) 4) s)
  else Next s.

(** The events the component reacts to, and the run of a sequence of them. *)
Inductive Event : Type :=
| ResizeStart (index : nat) (handle : string) (clientX clientY : Q)
| MoveStart (index : nat) (clientX clientY : Q)
| PointerMove (clientX clientY : Q) (container : option DOMRect)
| PointerUp
| DeleteBox (index : nat)
| Reset
| SyncSize
| Zoom (direction : Direction)
| Wheel (ctrlKey : bool) (deltaY : Q).

Definition handle (e : Event) (s : EditSession) : Outcome :=
  match e with
  | ResizeStart i hd cx cy => handleResizeStart i hd cx cy s
  | MoveStart i cx cy => handleMoveStart i cx cy s
  | PointerMove cx cy rect => handlePointerMove cx cy rect s
  | PointerUp => handlePointerUp s
  | DeleteBox i => handleDeleteBox i s
  | Reset => handleReset s
  | SyncSize => handleSyncSize s
  | Zoom d => handleZoom d s
  | Wheel c dy => handleWheel c dy s
  end.

Fixpoint run (events : list Event) (s : EditSession) : Outcome :=
  match events with
  | [] => Next s
  | e :: events' =>
      match handle e s with
      | Next s' => run events' s'
      | stop => stop
      end
  end.

(** Box predicates used by the statements. *)
Definition width (b : BoundingBox) : Q := xmax b - xmin b.
Definition height (b : BoundingBox) : Q := ymax b - ymin b.

Definition withinBounds (b : BoundingBox) : Prop :=
  0 <= xmin b <= 1000 /\ 0 <= xmax b <= 1000 /\
  0 <= ymin b <= 1000 /\ 0 <= ymax b <= 1000.

Definition resizeHandles : list string :=
  ["n"; "s"; "e"; "w"; "ne"; "nw"; "se"; "sw"]%string.

(** A box used in the examples. *)
Definition unitBox : BoundingBox :=
  {| ymin := 100; xmin := 100; ymax := 300; xmax := 400 |}.

(** A box narrower than the minimum size, at the right edge of the canvas. *)
Definition edgeBox : BoundingBox :=
  {| ymin := 0; xmin := 990; ymax := 500; xmax := 1000 |}.


(** A 200 by 200 source box selected at index 0, and a 100 by 100 box that
    touches the right edge of the canvas. *)
Definition sourceBox200 : BoundingBox :=
  {| ymin := 0; xmin := 0; ymax := 200; xmax := 200 |}.

Definition rightEdgeBox : BoundingBox :=
  {| ymin := 400; xmin := 900; ymax := 500; xmax := 1000 |}.

Definition syncSession : EditSession :=
  setSelectedBoxIndex (Some 0%nat)
    (initialSession [sourceBox200; rightEdgeBox]).



End Editor.

(** ** Organizing before and after a dimension sync *)

Module SyncOrganize.
Import Organizer.









End SyncOrganize.

(** ** Slice pipeline ([imageProcessor.ts], [upscaleSliceWithAI] and
    [generateSlices]) *)

Module Pipeline.

Record Blob : Type := mkBlob { blobType : string; blobBytes : list nat }.

(** A part of the first candidate of a [generateContent] response: either it
    carries non-empty [inlineData.data] (base64 text) or it does not. *)
Inductive Part : Type :=
| otherPart
| inlinePart (data : string).

(** The enhancement request: the promise rejects, or resolves to a response
    whose first candidate has the given parts ([None]: no candidates, no
    content or no parts). *)
Inductive AiReply : Type :=
| aiRejects
| aiResponse (parts : option (list Part)).

(** The browser and the services the pipeline talks to.  A promise that can
    reject, or a call that can throw or return [null], has an [option]
    result.  [generateContent] is indexed by the tile the request is made
    for. *)
Record Env : Type := mkEnv
  { loadImage : option (Q * Q);
    getContext2d : bool;
    toBlob : Q -> Q -> Q -> Q -> option Blob;
    apiKey : bool;
    blobToBase64 : Blob -> option string;
    generateContent : nat -> string -> string -> AiReply;
    atob : string -> option (list nat);
    createImageBitmap : Blob -> option (nat * nat);
    createObjectURL : Blob -> string }.

(** The [for] loop over the parts: the first part with inline data ends the
    loop, either with the decoded blob or, when [atob] throws, in the [catch]
    block ([None] here). *)
Fixpoint firstInlineImage (env : Env) (parts : list Part)
  : option (option Blob) :=
  match parts with
  | [] => None
  | otherPart :: parts' => firstInlineImage env parts'
  | inlinePart data :: _ =>
      match atob env data with
      | Some byteArray =>
          Some (Some {| blobType := "image/png"; blobBytes := byteArray |})
      | None => Some None
      end
  end.

(** [upscaleSliceWithAI]: every path that does not produce an enhanced image,
    the [catch] block included, returns the blob it was given. *)
Definition upscaleSliceWithAI (env : Env) (tile : nat) (blob : Blob)
  (mimeType : string) : Blob :=
  if negb (apiKey env) then blob
  else
    match blobToBase64 env blob with
    | None => blob
    | Some base64Data =>
        match generateContent env tile mimeType base64Data with
        | aiRejects => blob
        | aiResponse None => blob
        | aiResponse (Some parts) =>
            match firstInlineImage env parts with
            | Some (Some enhanced) => enhanced
            | Some None => blob
            | None => blob
            end
        end
    end.

Record ImageSlice : Type := mkSlice
  { id : nat; url : string; blob : Blob;
    row : nat; col : nat; width : nat; height : nat }.

Record GridDimensions : Type := mkDims { rows : nat; cols : nat }.

Record SplitResult : Type := mkSplit
  { slices : list ImageSlice; dimensions : GridDimensions }.

(** A settled promise. *)
Inductive Promise (A : Type) : Type :=
| Resolved (value : A)
| Rejected (reason : string).
Arguments Resolved {A} value.
Arguments Rejected {A} reason.

(** The sequential [for] loop of [generateSlices]; [i] is the loop index. *)
Fixpoint sliceLoop (env : Env) (items : list Organizer.Placed) (i : nat)
  (slices : list ImageSlice) : Promise (list ImageSlice) :=
  match items with
  | [] => Resolved slices
  | item :: items' =>
      let b := Organizer.box item in
      match toBlob env (Organizer.x b) (Organizer.y b)
                       (Organizer.w b) (Organizer.h b) with
      | Some cropBlob =>
          let upscaledBlob := upscaleSliceWithAI env i cropBlob "image/png" in
          match createImageBitmap env upscaledBlob with
          | None => Rejected "createImageBitmap"
          | Some (bitmapWidth, bitmapHeight) =>
              sliceLoop env items' (S i)
                (slices ++
                 [ {| id := i;
                      url := createObjectURL env upscaledBlob;
                      blob := upscaledBlob;
                      row := Organizer.row item;
                      col := Organizer.col item;
                      width := bitmapWidth;
                      height := bitmapHeight |} ])
          end
      | None => sliceLoop env items' (S i) slices
      end
  end.

Definition generateSlices (env : Env) (boxes : list BoundingBox)
  : Promise SplitResult :=
  match loadImage env with
  | None => Rejected "image load error"
  | Some (imgWidth, imgHeight) =>
      if (length boxes =? 0)%nat then Rejected "No boxes to process."
      else
        let organized := Organizer.organizeBoxes boxes imgWidth imgHeight in
        if negb (getContext2d env) then Rejected "Canvas error"
        else
          match sliceLoop env (Organizer.sortedBoxes organized) 0 [] with
          | Rejected reason => Rejected reason
          | Resolved slices =>
              Resolved
                {| slices := slices;
                   dimensions :=
                     {| rows := Organizer.rows organized;
                        cols := Organizer.cols organized |} |}
          end
  end.

(** The outcome of the enhancement request for one tile, as
    [upscaleSliceWithAI] sees it. *)
Definition enhancementFails (env : Env) (tile : nat) (cropBlob : Blob)
  : Prop :=
  apiKey env = false \/
  blobToBase64 env cropBlob = None \/
  exists base64Data,
    blobToBase64 env cropBlob = Some base64Data /\
    (generateContent env tile "image/png" base64Data = aiRejects \/
     generateContent env tile "image/png" base64Data = aiResponse None \/
     exists parts,
       generateContent env tile "image/png" base64Data
       = aiResponse (Some parts) /\
       (firstInlineImage env parts = None \/
        firstInlineImage env parts = Some None)).

(** The slice [sl] stands for the placed box [item]: it has its row and
    column and, when the enhancement request for it fails, the crop itself as
    blob with the dimensions of the bitmap decoded from the crop. *)
Definition tileOf (env : Env) (item : Organizer.Placed) (sl : ImageSlice)
  : Prop :=
  row sl = Organizer.row item /\ col sl = Organizer.col item /\
  forall cropBlob,
    toBlob env (Organizer.x (Organizer.box item))
      (Organizer.y (Organizer.box item))
      (Organizer.w (Organizer.box item))
      (Organizer.h (Organizer.box item)) = Some cropBlob ->
    enhancementFails env (id sl) cropBlob ->
    blob sl = cropBlob /\
    createImageBitmap env cropBlob = Some (width sl, height sl).

(** The blob [cropCanvas.toBlob] gives for a placed box, [None] for
    [null]. *)
Definition cropOf (env : Env) (item : Organizer.Placed) : option Blob :=
  toBlob env (Organizer.x (Organizer.box item))
    (Organizer.y (Organizer.box item))
    (Organizer.w (Organizer.box item))
    (Organizer.h (Organizer.box item)).

(** The tile of loop index [i] cannot be decoded: the crop of its box
    encodes to a blob, and [createImageBitmap] rejects the blob that
    [upscaleSliceWithAI] returns for it. *)
Definition undecodable (env : Env) (i : nat) (item : Organizer.Placed)
  : Prop :=
  exists cropBlob,
    cropOf env item = Some cropBlob /\
    createImageBitmap env (upscaleSliceWithAI env i cropBlob "image/png")
    = None.

(** The placed boxes whose crop encodes to a blob, each with its loop index;
    [start] is the index of the first box. *)
Definition encodedFrom (env : Env) (start : nat)
  (items : list Organizer.Placed) : list (nat * Organizer.Placed) :=
  filter (fun p => match cropOf env (snd p) with
                   | Some _ => true
                   | None => false
                   end)
    (combine (seq start (length items)) items).

Definition encoded (env : Env) (items : list Organizer.Placed)
  : list (nat * Organizer.Placed) :=
  encodedFrom env 0 items.

(** [sl] is the tile of the placed box [snd p], pushed at the loop index
    [fst p]. *)
Definition tileAt (env : Env) (p : nat * Organizer.Placed) (sl : ImageSlice)
  : Prop :=
  id sl = fst p /\ tileOf env (snd p) sl.

(** A browser in which everything works and the enhancement service rejects
    every request, and one without a 2D canvas context. *)
Definition pngBlob : Blob := {| blobType := "image/png"; blobBytes := [] |}.

Definition rejectingEnv : Env :=
  {| loadImage := Some (1000, 1000);
     getContext2d := true;
     toBlob := fun _ _ _ _ => Some pngBlob;
     apiKey := true;
     blobToBase64 := fun _ => Some ""%string;
     generateContent := fun _ _ _ => aiRejects;
     atob := fun _ => None;
     createImageBitmap := fun _ => Some (300%nat, 200%nat);
     createObjectURL := fun _ => "blob:"%string |}.

Definition noCanvasEnv : Env :=
  {| loadImage := Some (1000, 1000);
     getContext2d := false;
     toBlob := fun _ _ _ _ => Some pngBlob;
     apiKey := true;
     blobToBase64 := fun _ => Some ""%string;
     generateContent := fun _ _ _ => aiRejects;
     atob := fun _ => None;
     createImageBitmap := fun _ => Some (300%nat, 200%nat);
     createObjectURL := fun _ => "blob:"%string |}.

End Pipeline.

(** ** The editor over any number system ([CropAdjuster.tsx]) *)

Module Numeric.

(** What the handlers need of numbers: the literals of the source ([lit q]
    is the number the decimal literal [q] denotes), the four operations,
    [Math.min], [Math.max] and the comparison [a < b]. *)
Class Number (T : Type) : Type := mkNumber
  { lit : Q -> T;
    add : T -> T -> T;
    sub : T -> T -> T;
    mul : T -> T -> T;
    div : T -> T -> T;
    Math_min : T -> T -> T;
    Math_max : T -> T -> T;
    lt : T -> T -> bool }.

Section Handlers.

Context {T : Type} {num : Number T}.

Record Box : Type := mkBox { ymin : T; xmin : T; ymax : T; xmax : T }.

Record DOMRect : Type := mkRect { rect_width : T; rect_height : T }.

Record Session : Type := mkSession
  { initialBoxes : list Box;
    boxes : list Box;
    activeBoxIndex : option nat;
    selectedBoxIndex : option nat;
    interactionMode : option Editor.Mode;
    resizeHandle : option string;
    startPos : T * T;
    startBoxState : option Box;
    scale : T }.

Definition initialSession (initial : list Box) : Session :=
  {| initialBoxes := initial;
     boxes := initial;
     activeBoxIndex := None;
     selectedBoxIndex := None;
     interactionMode := None;
     resizeHandle := None;
     startPos := (lit 0, lit 0);
     startBoxState := None;
     scale := lit 1 |}.

Definition setBoxes (newBoxes : list Box) (s : Session) : Session :=
  {| initialBoxes := initialBoxes s;
     boxes := newBoxes;
     activeBoxIndex := activeBoxIndex s;
     selectedBoxIndex := selectedBoxIndex s;
     interactionMode := interactionMode s;
     resizeHandle := resizeHandle s;
     startPos := startPos s;
     startBoxState := startBoxState s;
     scale := scale s |}.

Definition setSelectedBoxIndex (i : option nat) (s : Session) : Session :=
  {| initialBoxes := initialBoxes s;
     boxes := boxes s;
     activeBoxIndex := activeBoxIndex s;
     selectedBoxIndex := i;
     interactionMode := interactionMode s;
     resizeHandle := resizeHandle s;
     startPos := startPos s;
     startBoxState := startBoxState s;
     scale := scale s |}.

Definition setScale (k : T) (s : Session) : Session :=
  {| initialBoxes := initialBoxes s;
     boxes := boxes s;
     activeBoxIndex := activeBoxIndex s;
     selectedBoxIndex := selectedBoxIndex s;
     interactionMode := interactionMode s;
     resizeHandle := resizeHandle s;
     startPos := startPos s;
     startBoxState := startBoxState s;
     scale := k |}.

(** What a handler leaves behind: the next state; an exception; an array
    with holes ([Sparse]); or an array entry that lacks a bound
    ([Incomplete]). *)
Inductive Outcome : Type :=
| Next (s : Session)
| Throws (message : string)
| Sparse
| Incomplete.

(** [Partial<BoundingBox>] *)
Record PartialBox : Type := mkPartial
  { u_ymin : option T; u_xmin : option T;
    u_ymax : option T; u_xmax : option T }.

(** [{ ...target, ...updates }] *)
Definition spread (target : Box) (updates : PartialBox) : Box :=
  {| ymin := match u_ymin updates with Some v => v | None => ymin target end;
     xmin := match u_xmin updates with Some v => v | None => xmin target end;
     ymax := match u_ymax updates with Some v => v | None => ymax target end;
     xmax := match u_xmax updates with Some v => v | None => xmax target end |}.

(** [{ ...undefined, ...updates }]: the updates alone, a box when all four
    bounds are there. *)
Definition spreadUndefined (updates : PartialBox) : option Box :=
  match u_ymin updates, u_xmin updates, u_ymax updates, u_xmax updates with
  | Some y0, Some x0, Some y1, Some x1 =>
      Some {| ymin := y0; xmin := x0; ymax := y1; xmax := x1 |}
  | _, _, _, _ => None
  end.

Fixpoint replaceAt (index : nat) (b : Box) (l : list Box) : list Box :=
  match l, index with
  | [], _ => []
  | _ :: l', O => b :: l'
  | a :: l', S i => a :: replaceAt i b l'
  end.

(** [updateBox].  Inside the array the entry is replaced by the merged box.
    At the index just past the end the array grows by one entry, which holds
    the updates alone; further out it grows with holes in between. *)
Definition updateBox (index : nat) (updates : PartialBox) (s : Session)
  : Outcome :=
  match nth_error (boxes s) index with
  | Some target =>
      Next (setBoxes (replaceAt index (spread target updates) (boxes s)) s)
  | None =>
      if (index =? length (boxes s))%nat
      then match spreadUndefined updates with
           | Some b => Next (setBoxes (boxes s ++ [b]) s)
           | None => Incomplete
           end
      else Sparse
  end.

Definition handleResizeStart (index : nat) (handle : string)
  (clientX clientY : T) (s : Session) : Outcome :=
  Next {| initialBoxes := initialBoxes s;
          boxes := boxes s;
          activeBoxIndex := Some index;
          selectedBoxIndex := Some index;
          interactionMode := Some Editor.resize;
          resizeHandle := Some handle;
          startPos := (clientX, clientY);
          startBoxState := nth_error (boxes s) index;
          scale := scale s |}.

Definition handleMoveStart (index : nat) (clientX clientY : T) (s : Session)
  : Outcome :=
  Next {| initialBoxes := initialBoxes s;
          boxes := boxes s;
          activeBoxIndex := Some index;
          selectedBoxIndex := Some index;
          interactionMode := Some Editor.move;
          resizeHandle := None;
          startPos := (clientX, clientY);
          startBoxState := nth_error (boxes s) index;
          scale := scale s |}.

(** The [move] branch of [handlePointerMove]. *)
Definition moveUpdates (box : Box) (deltaX deltaY : T) : PartialBox :=
  let newXmin :=
    Math_max (lit 0)
      (Math_min (sub (lit 1000) (sub (xmax box) (xmin box)))
         (add (xmin box) deltaX)) in
  let newYmin :=
    Math_max (lit 0)
      (Math_min (sub (lit 1000) (sub (ymax box) (ymin box)))
         (add (ymin box) deltaY)) in
  {| u_xmin := Some newXmin;
     u_ymin := Some newYmin;
     u_xmax := Some (add newXmin (sub (xmax box) (xmin box)));
     u_ymax := Some (add newYmin (sub (ymax box) (ymin box))) |}.

(** The [resize] branch of [handlePointerMove]: the four local variables are
    updated in the order w, e, n, s. *)
Definition resizeUpdates (resizeHandle : string) (box : Box)
  (deltaX deltaY : T) : PartialBox :=
  let xmin_ := xmin box in
  let ymin_ := ymin box in
  let xmax_ := xmax box in
  let ymax_ := ymax box in
  let minSize := lit 20 in
  let xmin_ :=
    if Editor.includes resizeHandle "w"
    then Math_min (sub xmax_ minSize) (Math_max (lit 0) (add (xmin box) deltaX))
    else xmin_ in
  let xmax_ :=
    if Editor.includes resizeHandle "e"
    then Math_max (add xmin_ minSize)
           (Math_min (lit 1000) (add (xmax box) deltaX))
    else xmax_ in
  let ymin_ :=
    if Editor.includes resizeHandle "n"
    then Math_min (sub ymax_ minSize) (Math_max (lit 0) (add (ymin box) deltaY))
    else ymin_ in
  let ymax_ :=
    if Editor.includes resizeHandle "s"
    then Math_max (add ymin_ minSize)
           (Math_min (lit 1000) (add (ymax box) deltaY))
    else ymax_ in
  {| u_xmin := Some xmin_; u_ymin := Some ymin_;
     u_xmax := Some xmax_; u_ymax := Some ymax_ |}.

(** The pointer deltas of [handlePointerMove] on the 0-1000 scale. *)
Definition deltaXOf (s : Session) (clientX : T) (rect : DOMRect) : T :=
  mul (div (sub clientX (fst (startPos s))) (rect_width rect)) (lit 1000).

Definition deltaYOf (s : Session) (clientY : T) (rect : DOMRect) : T :=
  mul (div (sub clientY (snd (startPos s))) (rect_height rect)) (lit 1000).

(** [handlePointerMove].  [container] is the bounding rectangle of
    [containerRef.current], [None] when the ref is empty.  An empty handle
    string is falsy. *)
Definition handlePointerMove (clientX clientY : T)
  (container : option DOMRect) (s : Session) : Outcome :=
  match activeBoxIndex s, startBoxState s, container with
  | Some activeIndex, Some box, Some rect =>
      let deltaX := deltaXOf s clientX rect in
      let deltaY := deltaYOf s clientY rect in
      match interactionMode s, resizeHandle s with
      | Some Editor.move, _ =>
          updateBox activeIndex (moveUpdates box deltaX deltaY) s
      | Some Editor.resize, Some handle =>
          if String.eqb handle ""
          then Next s
          else updateBox activeIndex (resizeUpdates handle box deltaX deltaY) s
      | _, _ => Next s
      end
  | _, _, _ => Next s
  end.

Definition handlePointerUp (s : Session) : Outcome :=
  Next {| initialBoxes := initialBoxes s;
          boxes := boxes s;
          activeBoxIndex := None;
          selectedBoxIndex := selectedBoxIndex s;
          interactionMode := None;
          resizeHandle := None;
          startPos := startPos s;
          startBoxState := startBoxState s;
          scale := scale s |}.

Definition handleDeleteBox (index : nat) (s : Session) : Outcome :=
  let s1 :=
    setBoxes (filteri (fun _ i => negb (i =? index)%nat) (boxes s)) s in
  Next (match selectedBoxIndex s with
        | Some selected =>
            if (selected =? index)%nat then setSelectedBoxIndex None s1 else s1
        | None => s1
        end).

Definition handleReset (s : Session) : Outcome :=
  Next (setScale (lit 1)
          (setSelectedBoxIndex None (setBoxes (initialBoxes s) s))).

(** The shift logic of [handleSyncSize] on one axis ("Check Left" and "Check
    Right", and again "Check Top" and "Check Bottom"). *)
Definition shiftAxis (newMin newMax : T) : T * T :=
  let '(newMin, newMax) :=
    if lt newMin (lit 0)
    then let diff := sub (lit 0) newMin in (add newMin diff, add newMax diff)
    else (newMin, newMax) in
  if lt (lit 1000) newMax
  then
    let diff := sub newMax (lit 1000) in
    let newMin := add newMin diff in
    let newMax := add newMax diff in
    let newMin := if lt newMin (lit 0) then lit 0 else newMin in
    (newMin, newMax)
  else (newMin, newMax).

(** The callback of [boxes.map] in [handleSyncSize], for a box other than the
    source. *)
Definition syncBox (targetW targetH : T) (box : Box) : Box :=
  let cx := div (add (xmin box) (xmax box)) (lit 2) in
  let cy := div (add (ymin box) (ymax box)) (lit 2) in
  let newXmin := sub cx (div targetW (lit 2)) in
  let newXmax := add cx (div targetW (lit 2)) in
  let newYmin := sub cy (div targetH (lit 2)) in
  let newYmax := add cy (div targetH (lit 2)) in
  let '(newXmin, newXmax) := shiftAxis newXmin newXmax in
  let '(newYmin, newYmax) := shiftAxis newYmin newYmax in
  {| ymin := newYmin; xmin := newXmin; ymax := newYmax; xmax := newXmax |}.

Definition handleSyncSize (s : Session) : Outcome :=
  match selectedBoxIndex s with
  | None => Next s
  | Some selected =>
      match nth_error (boxes s) selected with
      | None => Throws "TypeError"
      | Some sourceBox =>
          let targetW := sub (xmax sourceBox) (xmin sourceBox) in
          let targetH := sub (ymax sourceBox) (ymin sourceBox) in
          let newBoxes :=
            mapi (fun box idx =>
                    if (idx =? selected)%nat then box
                    else syncBox targetW targetH box)
              (boxes s) in
          Next (setBoxes newBoxes s)
      end
  end.

Definition handleZoom (direction : Editor.Direction) (s : Session)
  : Outcome :=
  let prev := scale s in
  let delta :=
    match direction with
    | Editor.zoomIn => lit 0.25
    | Editor.zoomOut => lit (-0.25)
    end in
  Next (setScale (Math_min (Math_max (lit 0.5) (add prev delta)) (lit 4)) s).

Definition handleWheel (ctrlKey : bool) (deltaY : T) (s : Session)
  : Outcome :=
  if ctrlKey
  then let delta := mul deltaY (lit (-0.002)) in
       Next (setScale
               (Math_min (Math_max (lit 0.5) (add (scale s) delta)) (lit 4)) s)
  else Next s.

Inductive Event : Type :=
| ResizeStart (index : nat) (handle : string) (clientX clientY : T)
| MoveStart (index : nat) (clientX clientY : T)
| PointerMove (clientX clientY : T) (container : option DOMRect)
| PointerUp
| DeleteBox (index : nat)
| Reset
| SyncSize
| Zoom (direction : Editor.Direction)
| Wheel (ctrlKey : bool) (deltaY : T).

Definition handle (e : Event) (s : Session) : Outcome :=
  match e with
  | ResizeStart i hd cx cy => handleResizeStart i hd cx cy s
  | MoveStart i cx cy => handleMoveStart i cx cy s
  | PointerMove cx cy rect => handlePointerMove cx cy rect s
  | PointerUp => handlePointerUp s
  | DeleteBox i => handleDeleteBox i s
  | Reset => handleReset s
  | SyncSize => handleSyncSize s
  | Zoom d => handleZoom d s
  | Wheel c dy => handleWheel c dy s
  end.

Fixpoint run (events : list Event) (s : Session) : Outcome :=
  match events with
  | [] => Next s
  | e :: events' =>
      match handle e s with
      | Next s' => run events' s'
      | stop => stop
      end
  end.

(** The width and height of a box as the program computes them. *)
Definition width (b : Box) : T := sub (xmax b) (xmin b).
Definition height (b : Box) : T := sub (ymax b) (ymin b).

(** The pixel width [w] that [organizeBoxes] ([imageProcessor.ts]) computes
    for a box on an image [imageWidth] pixels wide; the slice pipeline makes
    it the width of the crop canvas, which keeps its integer part. *)
Definition pixelWidth (imageWidth : T) (b : Box) : T :=
  mul (div (sub (xmax b) (xmin b)) (lit 1000)) imageWidth.

(** A pointer move, whatever its coordinates. *)
Definition isPointerMove (e : Event) : Prop :=
  match e with PointerMove _ _ _ => True | _ => False end.

(** The box index a pointer-down event carries. *)
Definition startIndex (e : Event) : option nat :=
  match e with
  | MoveStart index _ _ | ResizeStart index _ _ _ => Some index
  | _ => None
  end.

(** The state of a gesture in progress is consistent: the snapshot, if any,
    was taken at the active index, which lies inside the array. *)
Definition tracking (s : Session) : Prop :=
  forall j b, activeBoxIndex s = Some j -> startBoxState s = Some b ->
              (j < length (boxes s))%nat.

End Handlers.

Arguments Box T : clear implicits.
Arguments DOMRect T : clear implicits.
Arguments Session T : clear implicits.
Arguments PartialBox T : clear implicits.
Arguments Outcome T : clear implicits.
Arguments Event T : clear implicits.

(** *** Binary64 doubles *)

Definition float_of_Z (z : Z) : float :=
  match z with
  | Z0 => PrimFloat.zero
  | Zpos _ => PrimFloat.of_uint63 (Uint63.of_Z z)
  | Zneg p => PrimFloat.opp (PrimFloat.of_uint63 (Uint63.of_Z (Zpos p)))
  end.

(** The double nearest to a decimal literal: the correctly rounded quotient
    of its numerator and denominator (both below 2^53 for the literals
    used). *)
Definition float_lit (q : Q) : float :=
  PrimFloat.div (float_of_Z (Qnum q)) (float_of_Z (Zpos (Qden q))).

(** [Math.min] and [Math.max] on doubles: [NaN] if an argument is [NaN], and
    [-0] counts as smaller than [+0]. *)
Definition float_min (a b : float) : float :=
  if PrimFloat.is_nan a || PrimFloat.is_nan b then PrimFloat.nan
  else if PrimFloat.ltb a b then a
  else if PrimFloat.ltb b a then b
  else if PrimFloat.get_sign a then a else b.

Definition float_max (a b : float) : float :=
  if PrimFloat.is_nan a || PrimFloat.is_nan b then PrimFloat.nan
  else if PrimFloat.ltb a b then b
  else if PrimFloat.ltb b a then a
  else if PrimFloat.get_sign a then b else a.

#[export] Instance Binary64 : Number float :=
  {| lit := float_lit;
     add := PrimFloat.add;
     sub := PrimFloat.sub;
     mul := PrimFloat.mul;
     div := PrimFloat.div;
     Math_min := float_min;
     Math_max := float_max;
     lt := PrimFloat.ltb |}.

(** *** Rationals with a rounding function

    Every operation returns the rounding [fl] of its exact result.  With
    [fl] the rounding to the nearest double this is the arithmetic of finite
    doubles; with [fl] the identity it is exact arithmetic. *)
Definition Rounded (fl : Q -> Q) : Number Q :=
  {| lit := fun q => fl q;
     add := fun a b => fl (a + b);
     sub := fun a b => fl (a - b);
     mul := fun a b => fl (a * b);
     div := fun a b => fl (a / b);
     Math_min := Qmin;
     Math_max := Qmax;
     lt := Qltb |}.

(** A number the rounding leaves alone. *)
Definition representable (fl : Q -> Q) (x : Q) : Prop := fl x == x.

(** What is assumed of the rounding: it respects equality, is monotone,
    leaves a rounded number alone, leaves 0, 20 and 1000 alone, and a sum or
    a difference of two rounded numbers that is at most 4000 in absolute
    value, far from overflow, is rounded with a relative error of at most
    [u] (for doubles [u] is [2^-53]; sums and differences that fall into
    the subnormal range are exact).  Nothing is assumed of products and
    quotients beyond monotone rounding: the handlers use them for the
    pointer deltas only, and the statements hold for every delta. *)
Record Rounding (fl : Q -> Q) (u : Q) : Prop := mkRounding
  { fl_compat : forall x y, x == y -> fl x == fl y;
    fl_mono : forall x y, x <= y -> fl x <= fl y;
    fl_idem : forall x, fl (fl x) == fl x;
    fl_0 : fl 0 == 0;
    fl_20 : fl 20 == 20;
    fl_1000 : fl 1000 == 1000;
    u_small : 0 <= u /\ 1000 * u <= 1;
    fl_add_err : forall a b,
        representable fl a -> representable fl b -> Qabs (a + b) <= 4000 ->
        Qabs (fl (a + b) - (a + b)) <= u * Qabs (a + b);
    fl_sub_err : forall a b,
        representable fl a -> representable fl b -> Qabs (a - b) <= 4000 ->
        Qabs (fl (a - b) - (a - b)) <= u * Qabs (a - b) }.

(** Statements about boxes with rational bounds. *)
Definition representableBox (fl : Q -> Q) (b : Box Q) : Prop :=
  representable fl (ymin b) /\ representable fl (xmin b) /\
  representable fl (ymax b) /\ representable fl (xmax b).


Definition withinBounds (b : Box Q) : Prop :=
  0 <= xmin b <= 1000 /\ 0 <= xmax b <= 1000 /\
  0 <= ymin b <= 1000 /\ 0 <= ymax b <= 1000.







(** A rounded box within the canvas that is at least 20 wide and high. *)
Definition sound (fl : Q -> Q) (b : Box Q) : Prop :=
  representableBox fl b /\ withinBounds b /\
  20 <= xmax b - xmin b /\ 20 <= ymax b - ymin b.

(** Exact arithmetic as a rounding, and boxes for the examples. *)
Definition exact (x : Q) : Q := x.

Definition box100 : Box Q :=
  {| ymin := 100; xmin := 100; ymax := 300; xmax := 400 |}.

Definition resizing100 : Session Q :=
  {| initialBoxes := [box100];
     boxes := [box100];
     activeBoxIndex := Some 0%nat;
     selectedBoxIndex := Some 0%nat;
     interactionMode := Some Editor.resize;
     resizeHandle := Some "se"%string;
     startPos := (0, 0);
     startBoxState := Some box100;
     scale := 1 |}.

(** Example boxes and sessions in doubles. *)
Definition floatBox (y0 x0 y1 x1 : Q) : Box float :=
  {| ymin := float_lit y0; xmin := float_lit x0;
     ymax := float_lit y1; xmax := float_lit x1 |}.

Definition rect300 : option (DOMRect float) :=
  Some {| rect_width := float_lit 300; rect_height := float_lit 300 |}.

(** A session in the middle of a resize gesture, in doubles. *)
Definition resizingFloat : Session float :=
  {| initialBoxes := [floatBox 100 100 300 400];
     boxes := [floatBox 100 100 300 400];
     activeBoxIndex := Some 0%nat;
     selectedBoxIndex := Some 0%nat;
     interactionMode := Some Editor.resize;
     resizeHandle := Some "se"%string;
     startPos := (float_lit 0, float_lit 0);
     startBoxState := Some (floatBox 100 100 300 400);
     scale := float_lit 1 |}.


End Numeric.

(* ================================================================== *)
(** * Part II: properties                                              *)
(* ================================================================== *)

(** ** Arithmetic helpers *)

(** Case analysis on every [Qmin] and [Qmax] in sight, leaving linear
    goals. *)
Ltac qminmax_step :=
  match goal with
  | |- context [Qmin ?a ?b] =>
      let H := fresh "Hmin" in
      pose proof (Q.min_spec a b) as H; generalize dependent (Qmin a b); intros
  | |- context [Qmax ?a ?b] =>
      let H := fresh "Hmax" in
      pose proof (Q.max_spec a b) as H; generalize dependent (Qmax a b); intros
  | H0 : context [Qmin ?a ?b] |- _ =>
      let H := fresh "Hmin" in
      pose proof (Q.min_spec a b) as H; generalize dependent (Qmin a b); intros
  | H0 : context [Qmax ?a ?b] |- _ =>
      let H := fresh "Hmax" in
      pose proof (Q.max_spec a b) as H; generalize dependent (Qmax a b); intros
  end.

Ltac qminmax := repeat qminmax_step; intuition lra.

Lemma Qltb_lt (a b : Q) : Qltb a b = true <-> a < b.
Proof.
  unfold Qltb. rewrite negb_true_iff. split; intro H.
  - apply Qnot_le_lt. intro Hle. apply Qle_bool_iff in Hle. congruence.
  - destruct (Qle_bool b a) eqn:E; [|reflexivity].
    apply Qle_bool_iff in E. lra.
Qed.

Lemma Qltb_ge (a b : Q) : Qltb a b = false <-> b <= a.
Proof.
  unfold Qltb. rewrite negb_false_iff. apply Qle_bool_iff.
Qed.

Lemma Qle_bool_false (a b : Q) : Qle_bool a b = false <-> b < a.
Proof.
  rewrite <- Qltb_lt. unfold Qltb. rewrite negb_true_iff. reflexivity.
Qed.

(** ** Arrays *)

Lemma filteri_from_past {A : Type} (l : list A) (start index : nat) :
  (index < start)%nat ->
  filteri_from start (fun _ i => negb (i =? index)%nat) l = l.
Proof.
  revert start. induction l as [|a l IH]; intros start Hlt; [reflexivity|].
  cbn [filteri_from].
  destruct (Nat.eqb_spec start index) as [E|_]; [lia|].
  cbn [negb]. f_equal. apply IH. lia.
Qed.

Lemma filteri_from_drop {A : Type} (l : list A) (start index : nat) :
  filteri_from start (fun _ i => negb (i =? start + index)%nat) l
  = firstn index l ++ skipn (S index) l.
Proof.
  revert start index. induction l as [|a l IH]; intros start index.
  - destruct index; reflexivity.
  - destruct index as [|index]; cbn [filteri_from firstn skipn app].
    + rewrite Nat.add_0_r, Nat.eqb_refl. cbn [negb].
      apply filteri_from_past. lia.
    + destruct (Nat.eqb_spec start (start + S index)) as [E|_]; [lia|].
      cbn [negb]. f_equal.
      replace (start + S index)%nat with (S start + index)%nat by lia.
      apply IH.
Qed.

Lemma filteri_drop {A : Type} (l : list A) (index : nat) :
  filteri (fun _ i => negb (i =? index)%nat) l
  = firstn index l ++ skipn (S index) l.
Proof. exact (filteri_from_drop l 0 index). Qed.

Lemma nth_error_drop_before {A : Type} (l : list A) (index k : nat) :
  (k < index)%nat ->
  nth_error (firstn index l ++ skipn (S index) l) k = nth_error l k.
Proof.
  revert index k. induction l as [|a l IH]; intros index k Hlt.
  - destruct index; reflexivity.
  - destruct index as [|index]; [lia|].
    destruct k as [|k]; [reflexivity|].
    cbn [firstn skipn app nth_error]. apply IH. lia.
Qed.

Lemma nth_error_drop_after {A : Type} (l : list A) (index k : nat) :
  (index <= k)%nat ->
  nth_error (firstn index l ++ skipn (S index) l) k = nth_error l (S k).
Proof.
  revert index k. induction l as [|a l IH]; intros index k Hle.
  - destruct index, k; reflexivity.
  - destruct index as [|index]; [reflexivity|].
    destruct k as [|k]; [lia|].
    cbn [firstn skipn app nth_error]. rewrite IH by lia. reflexivity.
Qed.

Lemma NoDup_nth_error_neq {A : Type} (l : list A) (i j : nat) :
  NoDup l -> (i < length l)%nat -> i <> j ->
  nth_error l i <> nth_error l j.
Proof.
  intros Hnd Hi Hij E. apply Hij.
  exact (proj1 (NoDup_nth_error l) Hnd i j Hi E).
Qed.

(** ** Sorting *)

Section Sorting.

Context {A : Type} (key : A -> Q).

Let compareFn (a b : A) : Q := key a - key b.
Let le (a b : A) : Prop := key a <= key b.
Let lt (a b : A) : Prop := key a < key b.

Lemma sort_insert_perm (a : A) (l : list A) :
  Permutation (sort_insert compareFn a l) (a :: l).
Proof.
  induction l as [|b l IH]; cbn [sort_insert]; [reflexivity|].
  destruct (Qle_bool (compareFn a b) 0); [reflexivity|].
  rewrite IH. apply perm_swap.
Qed.

Lemma Array_sort_perm (l : list A) : Permutation (Array_sort compareFn l) l.
Proof.
  induction l as [|a l IH]; [reflexivity|].
  cbn [Array_sort fold_right]. fold (Array_sort compareFn l).
  rewrite sort_insert_perm. constructor. exact IH.
Qed.

Lemma sort_insert_sorted (a : A) (l : list A) :
  StronglySorted le l -> StronglySorted le (sort_insert compareFn a l).
Proof.
  induction l as [|b l IH]; intro Hs; cbn [sort_insert].
  - repeat constructor.
  - inversion Hs as [|? ? Hl Hb]; subst.
    destruct (Qle_bool (compareFn a b) 0) eqn:E.
    + apply Qle_bool_iff in E. unfold compareFn in E.
      constructor; [exact Hs|]. constructor; [unfold le; lra|].
      revert Hb. apply Forall_impl. unfold le. intros c Hc. lra.
    + apply Qle_bool_false in E. unfold compareFn in E.
      constructor; [apply IH; exact Hl|].
      eapply Permutation_Forall;
        [apply Permutation_sym, sort_insert_perm|].
      constructor; [unfold le; lra|exact Hb].
Qed.

Lemma Array_sort_sorted (l : list A) :
  StronglySorted le (Array_sort compareFn l).
Proof.
  induction l as [|a l IH]; [constructor|].
  cbn [Array_sort fold_right]. apply sort_insert_sorted. exact IH.
Qed.

(** A list sorted without ties is the only sorted arrangement of its
    elements. *)
Lemma sorted_unique (l0 l1 : list A) :
  StronglySorted lt l0 -> StronglySorted le l1 -> Permutation l1 l0 ->
  l1 = l0.
Proof.
  intro H0. revert l1. induction H0 as [|a l0 Hs0 IH Ha]; intros l1 H1 HP.
  - apply Permutation_nil. symmetry. exact HP.
  - destruct l1 as [|b l1].
    + apply Permutation_nil_cons in HP. contradiction.
    + inversion H1 as [|? ? Hs1 Hb]; subst.
      assert (E : b = a).
      { assert (Hin : In b (a :: l0))
          by (apply (Permutation_in _ HP); left; reflexivity).
        destruct Hin as [E|Hin]; [symmetry; exact E|].
        assert (Hin' : In a (b :: l1))
          by (apply (Permutation_in _ (Permutation_sym HP)); left; reflexivity).
        destruct Hin' as [E|Hin']; [exact E|].
        rewrite Forall_forall in Ha, Hb.
        specialize (Ha b Hin). specialize (Hb a Hin').
        unfold lt, le in *. lra. }
      subst b. f_equal. apply IH; [exact Hs1|].
      apply Permutation_cons_inv with a. exact HP.
Qed.

Lemma Array_sort_strict (l0 l : list A) :
  StronglySorted lt l0 -> Permutation l l0 -> Array_sort compareFn l = l0.
Proof.
  intros H0 HP. apply sorted_unique; [exact H0|apply Array_sort_sorted|].
  rewrite Array_sort_perm. exact HP.
Qed.

Lemma filter_none (p : A -> bool) (l : list A) :
  (forall c, In c l -> p c = false) -> filter p l = [].
Proof.
  induction l as [|c l IH]; intro H; [reflexivity|]. cbn [filter].
  rewrite (H c (or_introl eq_refl)). apply IH.
  intros d Hd. apply H. right. exact Hd.
Qed.

Lemma filter_all (p : A -> bool) (l : list A) :
  (forall c, In c l -> p c = true) -> filter p l = l.
Proof.
  induction l as [|c l IH]; intro H; [reflexivity|]. cbn [filter].
  rewrite (H c (or_introl eq_refl)). f_equal. apply IH.
  intros d Hd. apply H. right. exact Hd.
Qed.

(** A sorted list is its elements up to a threshold followed by the
    others. *)
Lemma sorted_split (t : Q) (l : list A) :
  StronglySorted le l ->
  l = filter (fun a => Qle_bool (key a) t) l
      ++ filter (fun a => negb (Qle_bool (key a) t)) l.
Proof.
  induction 1 as [|a l Hs IH Ha]; [reflexivity|].
  cbn [filter]. destruct (Qle_bool (key a) t) eqn:E; cbn [negb app].
  - f_equal. exact IH.
  - apply Qle_bool_false in E.
    assert (Hnone : forall c, In c l -> Qle_bool (key c) t = false).
    { intros c Hc. apply Qle_bool_false.
      rewrite Forall_forall in Ha. specialize (Ha c Hc). unfold le in Ha.
      lra. }
    rewrite filter_none, filter_all; [reflexivity| |exact Hnone].
    intros c Hc. rewrite (Hnone c Hc). reflexivity.
Qed.

Lemma filter_sorted (p : A -> bool) (l : list A) :
  StronglySorted le l -> StronglySorted le (filter p l).
Proof.
  induction 1 as [|a l Hs IH Ha]; [constructor|].
  cbn [filter]. destruct (p a); [|exact IH].
  constructor; [exact IH|].
  rewrite Forall_forall in *. intros c Hc. apply Ha.
  apply filter_In in Hc. tauto.
Qed.

Lemma filter_perm (p : A -> bool) (l l' : list A) :
  Permutation l l' -> Permutation (filter p l) (filter p l').
Proof.
  induction 1 as [|a l l' HP IH|a b l|l l' l'' HP1 IH1 HP2 IH2];
    cbn [filter].
  - constructor.
  - destruct (p a); [constructor|]; exact IH.
  - destruct (p a), (p b); try reflexivity. apply perm_swap.
  - etransitivity; eassumption.
Qed.

End Sorting.

(** Sorting two arrays whose elements are related position by position,
    with comparators that agree on related elements, gives arrays related
    position by position. *)
Section SortRelated.

Context {A A' : Type} (Rel : A -> A' -> Prop).
Context (c : A -> A -> Q) (c' : A' -> A' -> Q).
Hypothesis Hc : forall a a' b b',
    Rel a a' -> Rel b b' -> Qle_bool (c a b) 0 = Qle_bool (c' a' b') 0.



End SortRelated.

(** ** The box editor *)

Module EditorFacts.
Import Editor.

(** *** Deleting a box *)

(** C10.  [handleDeleteBox] removes exactly the box at [index] and keeps the
    others in order; the selection is cleared when it is [index] and is left
    alone otherwise.  Hence, after deleting a box in front of the selected one
    the selection keeps its number and denotes the box that used to be one
    position further (none, when the selected box was the last): in an array
    without repeated boxes, a box different from the one selected before. *)
Theorem delete_keeps_selection_index (s : EditSession) (index : nat) :
  exists s',
    handleDeleteBox index s = Next s' /\
    boxes s' = firstn index (boxes s) ++ skipn (S index) (boxes s) /\
    (selectedBoxIndex s = Some index -> selectedBoxIndex s' = None) /\
    (selectedBoxIndex s <> Some index ->
     selectedBoxIndex s' = selectedBoxIndex s) /\
    (forall selected,
        selectedBoxIndex s = Some selected -> (index < selected)%nat ->
        selectedBoxIndex s' = Some selected /\
        nth_error (boxes s') selected = nth_error (boxes s) (S selected) /\
        (NoDup (boxes s) -> (selected < length (boxes s))%nat ->
         nth_error (boxes s') selected <> nth_error (boxes s) selected)).
Proof.
  unfold handleDeleteBox. rewrite filteri_drop.
  set (kept := firstn index (boxes s) ++ skipn (S index) (boxes s)).
  destruct (selectedBoxIndex s) as [sel|] eqn:Esel.
  - destruct (Nat.eqb_spec sel index) as [->|Hne].
    + eexists; split; [reflexivity|]. cbn.
      split; [reflexivity|]. split; [reflexivity|]. split; [congruence|].
      intros k [= <-] Hlt. lia.
    + eexists; split; [reflexivity|]. cbn. rewrite Esel.
      split; [reflexivity|]. split; [congruence|]. split; [reflexivity|].
      intros k [= <-] Hlt.
      assert (Hshift : nth_error kept sel = nth_error (boxes s) (S sel))
        by (apply nth_error_drop_after; lia).
      split; [reflexivity|]. split; [exact Hshift|].
      intros Hnd Hlen. rewrite Hshift. intro E. symmetry in E. revert E.
      apply NoDup_nth_error_neq; [exact Hnd|exact Hlen|lia].
  - eexists; split; [reflexivity|]. cbn. rewrite Esel.
    split; [reflexivity|]. split; [congruence|]. split; [reflexivity|].
    intros k [=].
Qed.

Lemma delete_keeps_selection_index_witness :
  exists s',
    handleDeleteBox 0 (setSelectedBoxIndex (Some 1%nat)
                         (initialSession [unitBox; sourceBox200; edgeBox]))
    = Next s' /\
    selectedBoxIndex s' = Some 1%nat /\
    nth_error (boxes s') 1 = Some edgeBox.
Proof.
  destruct (delete_keeps_selection_index
              (setSelectedBoxIndex (Some 1%nat)
                 (initialSession [unitBox; sourceBox200; edgeBox])) 0)
    as (s' & E & _ & _ & _ & Hshift).
  destruct (Hshift 1%nat eq_refl (Nat.lt_0_succ 0)) as (Hsel & Hnth & _).
  exists s'. split; [exact E|]. split; [exact Hsel|exact Hnth].
Defined.

(** *** Zoom *)






(** *** Lists *)




(** [includes] on a literal handle, by evaluation. *)
Ltac eval_includes :=
  repeat match goal with
    | |- context [includes ?a ?b] =>
        let v := eval vm_compute in (includes a b) in
        change (includes a b) with v
    end.

(** *** Dimension sync *)

(** C2, at the failing input.  The source is 200 wide and the target spans
    900..1000 horizontally, so the resized target 850..1050 passes the right
    edge by 50.  The "Check Right" branch adds the excess instead of
    subtracting it: the target ends at 900..1100, still 200 wide but further
    out of the canvas, where a shift back in-bounds gives 800..1000. *)
Theorem sync_right_shift_leaves_canvas :
  exists s' b',
    handleSyncSize syncSession = Next s' /\
    boxes s' = [sourceBox200; b'] /\
    xmin b' == 900 /\ xmax b' == 1100 /\
    ymin b' == 350 /\ ymax b' == 550 /\
    ~ withinBounds b'.
Proof.
  eexists. eexists. split; [reflexivity|]. split; [reflexivity|].
  split; [reflexivity|]. split; [reflexivity|].
  split; [reflexivity|]. split; [reflexivity|].
  intros (_ & (_ & Hx) & _). vm_compute in Hx. apply Hx. reflexivity.
Qed.

End EditorFacts.

(** ** The box editor in rounded arithmetic *)

Module RoundedFacts.
Import Numeric.

Lemma abs_bound (x m : Q) : - m <= x -> x <= m -> Qabs x <= m.
Proof. intros H1 H2. apply Qabs_case; intros; lra. Qed.

Lemma bound_abs (x m : Q) : Qabs x <= m -> - m <= x <= m.
Proof. intro H. apply Qabs_Qle_condition. exact H. Qed.

(** A rounding error bounded relative to [x] is bounded by [u * m] when
    [x] is bounded by [m]. *)
Lemma error_within (u e x m : Q) :
  0 <= u -> Qabs e <= u * Qabs x -> Qabs x <= m -> - (u * m) <= e <= u * m.
Proof.
  intros Hu He Hx. apply bound_abs.
  apply Qle_trans with (u * Qabs x); [exact He|].
  rewrite (Qmult_comm u (Qabs x)), (Qmult_comm u m).
  apply Qmult_le_compat_r; assumption.
Qed.

Section Axis.

Variables (fl : Q -> Q) (u : Q).
Hypothesis HR : Rounding fl u.

Let rep := representable fl.

Lemma rep_fl (x : Q) : rep (fl x).
Proof. apply (fl_idem fl u HR). Qed.

Lemma rep_compat (x y : Q) : x == y -> rep x -> rep y.
Proof.
  unfold rep, representable. intros E Hx.
  rewrite <- (fl_compat fl u HR x y E). rewrite Hx. exact E.
Qed.

Lemma fl_ge (x y : Q) : rep x -> x <= y -> x <= fl y.
Proof.
  intros Hx Hle. unfold rep, representable in Hx. rewrite <- Hx.
  apply (fl_mono fl u HR). exact Hle.
Qed.

Lemma fl_le (x y : Q) : rep y -> x <= y -> fl x <= y.
Proof.
  intros Hy Hle. unfold rep, representable in Hy. rewrite <- Hy.
  apply (fl_mono fl u HR). exact Hle.
Qed.

Lemma rep_0 : rep 0. Proof. exact (fl_0 fl u HR). Qed.
Lemma rep_20 : rep 20. Proof. exact (fl_20 fl u HR). Qed.
Lemma rep_1000 : rep 1000. Proof. exact (fl_1000 fl u HR). Qed.

Lemma rep_max (a b : Q) : rep a -> rep b -> rep (Qmax a b).
Proof.
  intros Ha Hb. destruct (Q.max_spec a b) as [(_ & E)|(_ & E)];
    [apply (rep_compat b)|apply (rep_compat a)];
    try assumption; symmetry; exact E.
Qed.

Lemma rep_min (a b : Q) : rep a -> rep b -> rep (Qmin a b).
Proof.
  intros Ha Hb. destruct (Q.min_spec a b) as [(_ & E)|(_ & E)];
    [apply (rep_compat a)|apply (rep_compat b)];
    try assumption; symmetry; exact E.
Qed.

Lemma add_error (a b m : Q) :
  rep a -> rep b -> Qabs (a + b) <= m -> m <= 4000 ->
  - (u * m) <= fl (a + b) - (a + b) <= u * m.
Proof.
  intros Ha Hb Hm H4. destruct (u_small fl u HR) as (Hu0 & _).
  apply (error_within u _ (a + b)); [exact Hu0| |exact Hm].
  apply (fl_add_err fl u HR); [exact Ha|exact Hb|lra].
Qed.

Lemma sub_error (a b m : Q) :
  rep a -> rep b -> Qabs (a - b) <= m -> m <= 4000 ->
  - (u * m) <= fl (a - b) - (a - b) <= u * m.
Proof.
  intros Ha Hb Hm H4. destruct (u_small fl u HR) as (Hu0 & _).
  apply (error_within u _ (a - b)); [exact Hu0| |exact Hm].
  apply (fl_sub_err fl u HR); [exact Ha|exact Hb|lra].
Qed.


Local Abbreviation numR := (Rounded fl).






Lemma replaceAt_same_box (j : nat) (b : Box Q) (l : list (Box Q)) :
  (j < length l)%nat -> nth_error (replaceAt j b l) j = Some b.
Proof.
  revert j. induction l as [|a l IH]; intros j Hlt; [cbn in Hlt; lia|].
  destruct j as [|j]; cbn; [reflexivity|]. apply IH. cbn in Hlt. lia.
Qed.



(** One axis of a resize: the lower edge moves (handles with w or n), or
    the upper edge moves (handles with e or s). *)
Lemma resize_lower (lo hi d : Q) :
  rep lo -> rep hi -> 0 <= lo -> hi <= 1000 -> 20 <= hi - lo ->
  let newLo := Qmin (fl (hi - fl 20)) (Qmax (fl 0) (fl (lo + d))) in
  rep newLo /\ 0 <= newLo /\ newLo <= 1000 /\ 20 - 1000 * u <= hi - newLo /\
  newLo == Qmin (fl (hi - 20)) (Qmax 0 (fl (lo + d))).
Proof.
  intros Hlo Hhi H0 H1 H20. cbv zeta.
  destruct (u_small fl u HR) as (Hu0 & Hu1).
  assert (E20 : fl (hi - fl 20) == fl (hi - 20)).
  { apply (fl_compat fl u HR). rewrite (fl_20 fl u HR). reflexivity. }
  pose proof (fl_0 fl u HR) as Hz.
  assert (Hc_rep : rep (fl (hi - fl 20))) by apply rep_fl.
  assert (Hz_rep : rep (fl 0)) by apply rep_fl.
  assert (Hd_rep : rep (fl (lo + d))) by apply rep_fl.
  assert (Hrep : rep (Qmin (fl (hi - fl 20)) (Qmax (fl 0) (fl (lo + d)))))
    by (apply rep_min; [exact Hc_rep|apply rep_max; assumption]).
  assert (Hc0 : 0 <= fl (hi - 20)) by (apply (fl_ge 0); [apply rep_0|lra]).
  assert (Hc1 : fl (hi - 20) <= 1000) by (apply fl_le; [apply rep_1000|lra]).
  assert (Herr : - (u * 1000) <= fl (hi - 20) - (hi - 20) <= u * 1000).
  { apply sub_error; [exact Hhi|apply rep_20|apply abs_bound; lra|lra]. }
  split; [exact Hrep|].
  revert E20 Hz. generalize (fl (hi - fl 20)) (fl 0) (fl (lo + d)).
  intros c z cand E20 Hz. repeat split; qminmax.
Qed.

Lemma resize_upper (lo hi d : Q) :
  rep lo -> rep hi -> 0 <= lo -> hi <= 1000 -> 20 <= hi - lo ->
  let newHi := Qmax (fl (lo + fl 20)) (Qmin (fl 1000) (fl (hi + d))) in
  rep newHi /\ 0 <= newHi /\ newHi <= 1000 /\ 20 - 1000 * u <= newHi - lo /\
  newHi == Qmax (fl (lo + 20)) (Qmin 1000 (fl (hi + d))).
Proof.
  intros Hlo Hhi H0 H1 H20. cbv zeta.
  destruct (u_small fl u HR) as (Hu0 & Hu1).
  assert (E20 : fl (lo + fl 20) == fl (lo + 20)).
  { apply (fl_compat fl u HR). rewrite (fl_20 fl u HR). reflexivity. }
  pose proof (fl_1000 fl u HR) as Hk.
  assert (Hc_rep : rep (fl (lo + fl 20))) by apply rep_fl.
  assert (Hk_rep : rep (fl 1000)) by apply rep_fl.
  assert (Hd_rep : rep (fl (hi + d))) by apply rep_fl.
  assert (Hrep : rep (Qmax (fl (lo + fl 20)) (Qmin (fl 1000) (fl (hi + d)))))
    by (apply rep_max; [exact Hc_rep|apply rep_min; assumption]).
  assert (Hc0 : 0 <= fl (lo + 20)) by (apply (fl_ge 0); [apply rep_0|lra]).
  assert (Hc1 : fl (lo + 20) <= 1000) by (apply fl_le; [apply rep_1000|lra]).
  assert (Herr : - (u * 1000) <= fl (lo + 20) - (lo + 20) <= u * 1000).
  { apply add_error; [exact Hlo|apply rep_20|apply abs_bound; lra|lra]. }
  split; [exact Hrep|].
  revert E20 Hk. generalize (fl (lo + fl 20)) (fl 1000) (fl (hi + d)).
  intros c k cand E20 Hk. repeat split; qminmax.
Qed.

Lemma resize_box (handle : string) (sb target : Box Q) (deltaX deltaY : Q) :
  In handle Editor.resizeHandles -> sound fl sb ->
  let b' := spread target (@resizeUpdates Q numR handle sb deltaX deltaY) in
  representableBox fl b' /\ withinBounds b' /\
  20 - 1000 * u <= xmax b' - xmin b' /\
  20 - 1000 * u <= ymax b' - ymin b' /\
  (if Editor.includes handle "w"
   then xmin b' == Qmin (fl (xmax sb - 20)) (Qmax 0 (fl (xmin sb + deltaX)))
   else xmin b' = xmin sb) /\
  (if Editor.includes handle "e"
   then xmax b' == Qmax (fl (xmin sb + 20)) (Qmin 1000 (fl (xmax sb + deltaX)))
   else xmax b' = xmax sb) /\
  (if Editor.includes handle "n"
   then ymin b' == Qmin (fl (ymax sb - 20)) (Qmax 0 (fl (ymin sb + deltaY)))
   else ymin b' = ymin sb) /\
  (if Editor.includes handle "s"
   then ymax b' == Qmax (fl (ymin sb + 20)) (Qmin 1000 (fl (ymax sb + deltaY)))
   else ymax b' = ymax sb).
Proof.
  intros Hin ((Ry0 & Rx0 & Ry1 & Rx1) & ((X0 & X0') & (X1 & X1') & (Y0 & Y0')
                                         & (Y1 & Y1')) & HW & HH).
  destruct (u_small fl u HR) as (Hu0 & Hu1).
  pose proof (resize_lower (xmin sb) (xmax sb) deltaX Rx0 Rx1 X0 X1' HW)
    as (XL1 & XL2 & XL3 & XL4 & XL5).
  pose proof (resize_upper (xmin sb) (xmax sb) deltaX Rx0 Rx1 X0 X1' HW)
    as (XU1 & XU2 & XU3 & XU4 & XU5).
  pose proof (resize_lower (ymin sb) (ymax sb) deltaY Ry0 Ry1 Y0 Y1' HH)
    as (YL1 & YL2 & YL3 & YL4 & YL5).
  pose proof (resize_upper (ymin sb) (ymax sb) deltaY Ry0 Ry1 Y0 Y1' HH)
    as (YU1 & YU2 & YU3 & YU4 & YU5).
  cbn [In Editor.resizeHandles] in Hin.
  repeat (destruct Hin as [<-|Hin]); try contradiction;
    unfold resizeUpdates, spread; EditorFacts.eval_includes;
    cbv beta iota zeta;
    cbn [u_xmin u_ymin u_xmax u_ymax xmin ymin xmax ymax
         lit add sub Math_max Math_min Rounded];
    unfold representableBox, withinBounds;
    cbn [xmin ymin xmax ymax];
    repeat split; try assumption; try reflexivity; lra.
Qed.

End Axis.

(** Exact arithmetic is a rounding, with error 0. *)
Lemma exact_rounding : Rounding exact 0.
Proof.
  unfold exact. constructor; try reflexivity; try (intros; assumption).
  - lra.
  - intros a b _ _ _. apply abs_bound; lra.
  - intros a b _ _ _. apply abs_bound; lra.
Qed.



(** C4, as the code has it, in arithmetic that rounds every operation.  Take
    a resize gesture with one of the eight handles whose snapshot is a
    rounded box with its four bounds within 0..1000 and at least 20 wide and
    high, and a pointer move over a container of positive size.  The move
    replaces the active box, and nothing else, by a box with its four bounds
    within 0..1000 whose width and height are at least [20 - 1000 u].  Each
    edge named in the handle is the rounded sum of its snapshot value and
    the delta, clamped to the canvas bound and to the rounded position 20
    away from the opposite edge of the snapshot; each edge not named is the
    snapshot's. *)
Theorem resize_keeps_bounds_up_to_rounding (fl : Q -> Q) (u : Q)
  (s : Session Q) (handle : string) (j : nat) (sb target : Box Q)
  (clientX clientY : Q) (rect : DOMRect Q) :
  Rounding fl u ->
  activeBoxIndex s = Some j ->
  interactionMode s = Some Editor.resize ->
  resizeHandle s = Some handle ->
  In handle Editor.resizeHandles ->
  startBoxState s = Some sb ->
  nth_error (boxes s) j = Some target ->
  sound fl sb ->
  0 < rect_width rect -> 0 < rect_height rect ->
  let deltaX := @deltaXOf Q (Rounded fl) s clientX rect in
  let deltaY := @deltaYOf Q (Rounded fl) s clientY rect in
  exists s' b',
    @handlePointerMove Q (Rounded fl) clientX clientY (Some rect) s = Next s' /\
    boxes s' = replaceAt j b' (boxes s) /\
    nth_error (boxes s') j = Some b' /\
    representableBox fl b' /\ withinBounds b' /\
    20 - 1000 * u <= xmax b' - xmin b' /\
    20 - 1000 * u <= ymax b' - ymin b' /\
    (if Editor.includes handle "w"
     then xmin b' == Qmin (fl (xmax sb - 20)) (Qmax 0 (fl (xmin sb + deltaX)))
     else xmin b' = xmin sb) /\
    (if Editor.includes handle "e"
     then xmax b'
          == Qmax (fl (xmin sb + 20)) (Qmin 1000 (fl (xmax sb + deltaX)))
     else xmax b' = xmax sb) /\
    (if Editor.includes handle "n"
     then ymin b' == Qmin (fl (ymax sb - 20)) (Qmax 0 (fl (ymin sb + deltaY)))
     else ymin b' = ymin sb) /\
    (if Editor.includes handle "s"
     then ymax b'
          == Qmax (fl (ymin sb + 20)) (Qmin 1000 (fl (ymax sb + deltaY)))
     else ymax b' = ymax sb).
Proof.
  intros HR Hact Hmode Hh Hin Hsnap Ht Hsound _ _ deltaX deltaY.
  unfold handlePointerMove. rewrite Hact, Hsnap, Hmode, Hh.
  assert (Hne : String.eqb handle "" = false).
  { cbn [In Editor.resizeHandles] in Hin.
    repeat (destruct Hin as [<-|Hin]); try contradiction; reflexivity. }
  rewrite Hne. unfold updateBox. rewrite Ht.
  fold deltaX deltaY.
  eexists. eexists. split; [reflexivity|]. split; [reflexivity|]. split.
  - cbn [boxes setBoxes]. apply replaceAt_same_box.
    apply nth_error_Some. congruence.
  - apply (resize_box fl u HR); assumption.
Qed.

Lemma resize_keeps_bounds_up_to_rounding_witness :
  exists s' b',
    @handlePointerMove Q (Rounded exact) 2000 (-2000)
      (Some (mkRect 500 500)) resizing100 = Next s' /\
    nth_error (boxes s') 0 = Some b' /\
    withinBounds b' /\ 20 - 1000 * 0 <= xmax b' - xmin b'.
Proof.
  destruct (resize_keeps_bounds_up_to_rounding exact 0 resizing100 "se" 0
              box100 box100 2000 (-2000) (mkRect 500 500))
    as (s' & b' & E & _ & Hn & _ & Hb & Hw & _).
  - exact exact_rounding.
  - reflexivity.
  - reflexivity.
  - reflexivity.
  - cbn. tauto.
  - reflexivity.
  - reflexivity.
  - unfold sound, representableBox, representable, withinBounds, exact.
    cbn. repeat split; try reflexivity; lra.
  - reflexivity.
  - reflexivity.
  - exists s', b'. split; [exact E|]. split; [exact Hn|].
    split; [exact Hb|exact Hw].
Defined.

End RoundedFacts.

(** ** The box editor in doubles *)

Module Binary64Facts.
Import Numeric.


(** The same run stays within the bound of [moves_keep_size_up_to_rounding]
    for two events and [u = 2^-53]. *)
Example move_example_within_bound :
  exists s' b',
    run [MoveStart 0 (lit 0) (lit 0); PointerMove (lit 10) (lit 10) rect300]
      (initialSession [floatBox 100 100 300 400]) = Next s' /\
    boxes s' = [b'] /\
    PrimFloat.ltb (sub (height b') (lit 200))
      (lit (2 * 3000 # 9007199254740992)) = true.
Proof.
  eexists. eexists. split; [vm_compute; reflexivity|].
  split; [reflexivity|]. vm_compute. reflexivity.
Qed.

(** C4 as worded fails.  A box 10 wide at the right edge of the canvas,
    resized with the handle [se] without moving the pointer, ends with
    [xmax = 1010]: the minimum size wins over the canvas bound.  And a box
    dragged by 4 pixels on a 300 pixel container and then narrowed with the
    handle [se] as far as it goes ends less than 20 wide (by rounding). *)
Lemma resize_leaves_bounds_counterexample :
  (exists s' b',
      run [ResizeStart 0 "se" (lit 0) (lit 0);
           PointerMove (lit 0) (lit 0) rect300]
        (initialSession [floatBox 0 990 500 1000]) = Next s' /\
      boxes s' = [b'] /\
      PrimFloat.ltb (lit 1000) (xmax b') = true) /\
  (exists s' b',
      run [MoveStart 0 (lit 0) (lit 0); PointerMove (lit 4) (lit 0) rect300;
           PointerUp; ResizeStart 0 "se" (lit 0) (lit 0);
           PointerMove (lit (-3000)) (lit 0) rect300]
        (initialSession [floatBox 100 100 300 400]) = Next s' /\
      boxes s' = [b'] /\
      PrimFloat.ltb (width b') (lit 20) = true).
Proof.
  split; eexists; eexists; (split; [vm_compute; reflexivity|]);
    (split; [reflexivity|]); vm_compute; reflexivity.
Qed.

(** C6, at the failing input.  The second box is dragged by 10 pixels on a
    300 pixel container, the first box (200 by 200) is selected, and the
    sync runs twice.  After the first sync the second box is less than 200
    wide, and on an image 1000 pixels wide its pixel width is below 200, so
    its crop is 199 pixels wide where the source's is 200; the second sync
    changes the width of the box to 200. *)
Theorem sync_twice_changes_width :
  exists s0 s1 s2 b1 b2,
    run [MoveStart 1 (lit 0) (lit 0); PointerMove (lit 10) (lit 0) rect300;
         PointerUp; MoveStart 0 (lit 0) (lit 0); PointerUp]
      (initialSession [floatBox 0 0 200 200; floatBox 400 320 500 460])
    = Next s0 /\
    selectedBoxIndex s0 = Some 0%nat /\
    handleSyncSize s0 = Next s1 /\
    handleSyncSize s1 = Next s2 /\
    nth_error (boxes s1) 0 = Some (floatBox 0 0 200 200) /\
    nth_error (boxes s1) 1 = Some b1 /\
    nth_error (boxes s2) 1 = Some b2 /\
    PrimFloat.ltb (width b1) (lit 200) = true /\
    PrimFloat.ltb (pixelWidth (lit 1000) b1) (lit 200) = true /\
    pixelWidth (lit 1000) (floatBox 0 0 200 200) = lit 200 /\
    width b2 = lit 200.
Proof.
  eexists. eexists. eexists. eexists. eexists.
  split; [vm_compute; reflexivity|]. split; [reflexivity|].
  split; [vm_compute; reflexivity|]. split; [vm_compute; reflexivity|].
  split; [reflexivity|]. split; [reflexivity|]. split; [reflexivity|].
  repeat split; vm_compute; reflexivity.
Qed.

End Binary64Facts.

(** ** The grid organizer *)

Module OrganizerFacts.
Import Organizer.

(** C8.  On an empty list of boxes, whatever the image size, [organizeBoxes]
    returns the empty sequence with [rows = 0] and [cols = 0]; being a total
    function it does so without an exception. *)
Theorem organize_empty (width height : Q) :
  organizeBoxes [] width height
  = {| sortedBoxes := []; rows := 0; cols := 0 |}.
Proof. reflexivity. Qed.

Lemma Qnat_S (n : nat) : Qnat (S n) == Qnat n + 1.
Proof.
  unfold Qnat. rewrite Nat2Z.inj_succ, <- Z.add_1_r, inject_Z_plus.
  reflexivity.
Qed.

Section Grid.

Variables (W H : Q) (g : UniformGrid).
Hypotheses (HW : 0 < W) (HH : 0 < H) (Hg : wellSeparated g).

Let px (r c : nat) : PixelBox := toPixel W H (gridBox g r c).

Lemma tileHpx_pos : 0 < tileHpx H g.
Proof.
  destruct Hg as (_ & Hth & _). unfold tileHpx.
  apply Qmult_lt_0_compat; [|exact HH].
  apply Qlt_shift_div_l; lra.
Qed.

Lemma pitchYpx_ge : tileHpx H g <= pitchYpx H g.
Proof.
  destruct Hg as (_ & _ & _ & Hgy).
  assert (E : pitchYpx H g == tileHpx H g + (gapY g / 1000) * H)
    by (unfold pitchYpx, tileHpx; field).
  assert (0 <= (gapY g / 1000) * H).
  { apply Qmult_le_0_compat; [|lra]. apply Qle_shift_div_l; lra. }
  lra.
Qed.

Lemma pitchXpx_pos : 0 < pitchXpx W g.
Proof.
  destruct Hg as (Htw & _ & Hgx & _). unfold pitchXpx.
  apply Qmult_lt_0_compat; [|exact HW].
  apply Qlt_shift_div_l; lra.
Qed.

Lemma h_grid (r c : nat) : h (px r c) == tileHpx H g.
Proof. unfold px, tileHpx, toPixel, gridBox. cbn. field. Qed.

Lemma cy_grid_row (r c c' : nat) : cy (px r c) = cy (px r c').
Proof. reflexivity. Qed.

Lemma cy_grid_S (r c c' : nat) :
  cy (px (S r) c) == cy (px r c') + pitchYpx H g.
Proof.
  unfold px, pitchYpx, toPixel, gridBox. cbn. rewrite Qnat_S. field.
Qed.

Lemma cx_grid_S (r r' c : nat) :
  cx (px r (S c)) == cx (px r' c) + pitchXpx W g.
Proof.
  unfold px, pitchXpx, toPixel, gridBox. cbn. rewrite Qnat_S. field.
Qed.

Lemma cy_grid_lt (r r' c c' : nat) :
  (r < r')%nat -> cy (px r c) + pitchYpx H g <= cy (px r' c').
Proof.
  pose proof tileHpx_pos. pose proof pitchYpx_ge.
  induction r' as [|r' IH]; intro Hlt; [lia|].
  rewrite (cy_grid_S r' c' c').
  destruct (Nat.eq_dec r r') as [->|Hne].
  - rewrite (cy_grid_row r' c c'). lra.
  - assert (Hr : (r < r')%nat) by lia. specialize (IH Hr). lra.
Qed.

Lemma cx_grid_lt (r r' c c' : nat) :
  (c < c')%nat -> cx (px r c) < cx (px r' c').
Proof.
  pose proof pitchXpx_pos.
  induction c' as [|c' IH]; intro Hlt; [lia|].
  rewrite (cx_grid_S r' r' c').
  destruct (Nat.eq_dec c c') as [->|Hne].
  - assert (E : cx (px r c') = cx (px r' c')) by reflexivity.
    rewrite E. lra.
  - assert (Hc : (c < c')%nat) by lia. specialize (IH Hc). lra.
Qed.

(** Row [r] of the grid in pixel space, left to right. *)
Let pixRow (C r : nat) : list PixelBox := map (px r) (seq 0 C).

(** [a] sits at the height of row [r] and has the height of a tile. *)
Let rowlike (r : nat) (a : PixelBox) : Prop :=
  cy a == cy (px r 0) /\ h a == tileHpx H g.

Lemma pixRow_rowlike (C r : nat) : Forall (rowlike r) (pixRow C r).
Proof.
  apply Forall_forall. intros a Ha. apply in_map_iff in Ha.
  destruct Ha as (c & <- & _). split; [reflexivity|apply h_grid].
Qed.

Lemma pixRow_cx_sorted (C r : nat) :
  StronglySorted (fun a b => cx a < cx b) (pixRow C r).
Proof.
  unfold pixRow. generalize 0%nat. induction C as [|C IH]; intro k.
  - constructor.
  - cbn [seq map]. constructor; [apply IH|].
    apply Forall_forall. intros a Ha. apply in_map_iff in Ha.
    destruct Ha as (c & <- & Hc). apply in_seq in Hc.
    apply cx_grid_lt. lia.
Qed.

Lemma sameRow_same (r : nat) (a : PixelBox) (currentRowY : Q) :
  rowlike r a -> currentRowY == cy (px r 0) -> sameRow a currentRowY = true.
Proof.
  intros (Hcy & Hh) Hy. pose proof tileHpx_pos.
  unfold sameRow. apply Qltb_lt. apply Qabs_case; intros; lra.
Qed.

Lemma sameRow_next (r : nat) (a : PixelBox) (currentRowY : Q) :
  rowlike (S r) a -> currentRowY == cy (px r 0) ->
  sameRow a currentRowY = false.
Proof.
  intros (Hcy & Hh) Hy. pose proof tileHpx_pos. pose proof pitchYpx_ge.
  pose proof (cy_grid_S r 0 0).
  unfold sameRow. apply Qltb_ge. apply Qabs_case; intros; lra.
Qed.

Lemma clusterLoop_same (r : nat) (rest tail : list PixelBox)
  (rows : list (list PixelBox)) (cur : list PixelBox) (currentRowY : Q) :
  currentRowY == cy (px r 0) -> Forall (rowlike r) rest ->
  clusterLoop rows cur currentRowY (rest ++ tail)
  = clusterLoop rows (cur ++ rest) currentRowY tail.
Proof.
  intros Hy Hrest. revert cur.
  induction Hrest as [|a rest Ha _ IH]; intro cur.
  - rewrite app_nil_r. reflexivity.
  - cbn [app clusterLoop]. rewrite (sameRow_same r a _ Ha Hy).
    rewrite IH, <- app_assoc. reflexivity.
Qed.

Lemma clusterLoop_groups (groups : list (list PixelBox)) :
  forall (r : nat) (rows : list (list PixelBox)) (cur rest : list PixelBox)
         (currentRowY : Q),
    currentRowY == cy (px r 0) -> Forall (rowlike r) rest ->
    Forall2 (fun grp k => grp <> [] /\ Forall (rowlike k) grp)
      groups (seq (S r) (length groups)) ->
    clusterLoop rows cur currentRowY (rest ++ concat groups)
    = rows ++ [cur ++ rest] ++ groups.
Proof.
  induction groups as [|grp groups IH]; intros r rows cur rest y Hy Hrest HF.
  - rewrite (clusterLoop_same r _ _ _ _ _ Hy Hrest). reflexivity.
  - rewrite (clusterLoop_same r _ _ _ _ _ Hy Hrest).
    cbn [length seq] in HF. inversion HF as [|? ? ? ? (Hne & Hgrp) HF']; subst.
    destruct grp as [|a grp]; [congruence|].
    inversion Hgrp as [|? ? Ha Hgrp']; subst.
    cbn [concat app clusterLoop].
    rewrite (sameRow_next r a _ Ha Hy).
    rewrite (IH (S r) _ _ grp (cy a) (proj1 Ha) Hgrp' HF').
    rewrite <- app_assoc. reflexivity.
Qed.

(** A sorted arrangement of the rows [r0 .. r0+R-1] is those rows one after
    the other, each in some order. *)
Lemma sorted_rows_split (C R : nat) :
  forall (r0 : nat) (l : list PixelBox),
    StronglySorted (fun a b => cy a <= cy b) l ->
    Permutation l (concat (map (pixRow C) (seq r0 R))) ->
    exists groups,
      l = concat groups /\
      Forall2 (fun grp r => Permutation grp (pixRow C r)) groups (seq r0 R).
Proof.
  induction R as [|R IH]; intros r0 l Hs HP.
  - exists []. split; [|constructor].
    apply Permutation_nil. symmetry. exact HP.
  - cbn [seq map concat] in HP.
    set (p := fun a => Qle_bool (cy a) (cy (px r0 0))).
    set (rest := concat (map (pixRow C) (seq (S r0) R))) in *.
    assert (Hrow : filter p (pixRow C r0) = pixRow C r0).
    { apply filter_all. intros a Ha. apply in_map_iff in Ha.
      destruct Ha as (c & <- & _). apply Qle_bool_iff. apply Qle_refl. }
    assert (Hrest : forall a, In a rest -> p a = false).
    { intros a Ha. apply in_concat in Ha. destruct Ha as (row & Hrow' & Ha).
      apply in_map_iff in Hrow'. destruct Hrow' as (r & <- & Hr).
      apply in_seq in Hr. apply in_map_iff in Ha. destruct Ha as (c & <- & _).
      apply Qle_bool_false.
      assert (Hlt : (r0 < r)%nat) by lia.
      pose proof (cy_grid_lt r0 r 0 c Hlt).
      pose proof tileHpx_pos. pose proof pitchYpx_ge. lra. }
    assert (H1 : Permutation (filter p l) (pixRow C r0)).
    { rewrite (filter_perm p _ _ HP), filter_app, Hrow.
      rewrite (filter_none p rest Hrest). rewrite app_nil_r. reflexivity. }
    assert (H2 : Permutation (filter (fun a => negb (p a)) l) rest).
    { rewrite (filter_perm _ _ _ HP), filter_app.
      rewrite filter_none, filter_all; [reflexivity| |].
      - intros a Ha. rewrite (Hrest a Ha). reflexivity.
      - intros a Ha. apply in_map_iff in Ha. destruct Ha as (c & <- & _).
        apply negb_false_iff. apply Qle_bool_iff. apply Qle_refl. }
    destruct (IH (S r0) (filter (fun a => negb (p a)) l)) as (groups & E & HF).
    + apply (filter_sorted cy). exact Hs.
    + exact H2.
    + exists (filter p l :: groups). split.
      * cbn [concat]. rewrite <- E. apply (sorted_split cy). exact Hs.
      * constructor; assumption.
Qed.

Lemma mapi_from_map_seq {A B : Type} (f : A -> nat -> B) (e : nat -> A)
  (k n : nat) :
  mapi_from k f (map e (seq k n)) = map (fun c => f (e c) c) (seq k n).
Proof.
  revert k. induction n as [|n IH]; intro k; [reflexivity|].
  cbn [seq map mapi_from]. f_equal. apply IH.
Qed.

Lemma forEachRow_groups (C : nat) (groups : list (list PixelBox)) :
  forall (rowIndex maxCols : nat) (acc : list Placed),
    Forall2 (fun grp r => Permutation grp (pixRow C r))
      groups (seq rowIndex (length groups)) ->
    forEachRow groups rowIndex maxCols acc
    = (match groups with [] => maxCols | _ => Nat.max maxCols C end,
       acc ++ concat (map (placedRow W H g C)
                        (seq rowIndex (length groups)))).
Proof.
  induction groups as [|grp groups IH]; intros rowIndex maxCols acc HF.
  - cbn. rewrite app_nil_r. reflexivity.
  - cbn [length seq] in HF. inversion HF as [|? ? ? ? HP HF']; subst.
    cbn [forEachRow].
    rewrite (Array_sort_strict cx (pixRow C rowIndex) grp
               (pixRow_cx_sorted C rowIndex) HP).
    rewrite (IH _ _ _ HF').
    assert (Hlen : length (pixRow C rowIndex) = C)
      by (unfold pixRow; rewrite length_map, length_seq; reflexivity).
    rewrite Hlen. f_equal.
    + destruct (Nat.ltb_spec maxCols C); destruct groups; lia.
    + cbn [length seq map concat]. rewrite <- app_assoc. f_equal. f_equal.
      unfold mapi, pixRow, placedRow. apply mapi_from_map_seq.
Qed.

(** The organizer on any arrangement of an [R] by [C] grid. *)
Lemma organize_grid (R C : nat) (boxes : list BoundingBox) :
  (0 < R)%nat -> (0 < C)%nat ->
  Permutation boxes (gridBoxes g R C) ->
  organizeBoxes boxes W H
  = {| sortedBoxes := rowMajor W H g R C; rows := R; cols := C |}.
Proof.
  intros HR HC HP. unfold organizeBoxes.
  set (sorted := Array_sort (fun a b => cy a - cy b) (map (toPixel W H) boxes)).
  assert (Hperm : Permutation sorted (concat (map (pixRow C) (seq 0 R)))).
  { unfold sorted. rewrite (Array_sort_perm cy).
    rewrite (Permutation_map (toPixel W H) HP).
    unfold gridBoxes. rewrite concat_map, map_map.
    unfold pixRow, gridRow, px.
    erewrite map_ext; [reflexivity|]. intro r. cbn. apply map_map. }
  destruct (sorted_rows_split C R 0 sorted (Array_sort_sorted cy _) Hperm)
    as (groups & E & HF).
  assert (Hlen : length groups = R).
  { rewrite (Forall2_length HF). apply length_seq. }
  rewrite E.
  assert (Hcluster : clusterRows (concat groups) = groups).
  { destruct groups as [|grp groups]; [reflexivity|].
    cbn [length] in Hlen. destruct R as [|R']; [lia|].
    cbn [seq] in HF. inversion HF as [|? ? ? ? HP0 HF']; subst.
    assert (Hall0 : Forall (rowlike 0) grp).
    { eapply Permutation_Forall;
        [apply Permutation_sym; exact HP0|apply pixRow_rowlike]. }
    destruct grp as [|a grp].
    { apply Permutation_length in HP0. unfold pixRow in HP0.
      rewrite length_map, length_seq in HP0. cbn in HP0. lia. }
    inversion Hall0 as [|? ? Ha Hgrp]; subst.
    cbn [concat app clusterRows].
    rewrite (clusterLoop_groups groups 0 [] [a] grp (cy a) (proj1 Ha) Hgrp).
    - reflexivity.
    - injection Hlen as Hlen. rewrite Hlen.
      revert HF'. apply Forall2_impl. intros grp' r HPr. split.
      + intro E0. subst grp'. apply Permutation_length in HPr.
        unfold pixRow in HPr. rewrite length_map, length_seq in HPr.
        cbn in HPr. lia.
      + eapply Permutation_Forall;
          [apply Permutation_sym; exact HPr|apply pixRow_rowlike]. }
  rewrite Hcluster.
  rewrite (forEachRow_groups C groups 0 0 []);
    [|rewrite Hlen; exact HF].
  rewrite Hlen. cbn [app]. unfold rowMajor.
  destruct groups as [|grp groups]; [cbn in Hlen; lia|].
  rewrite Nat.max_0_l. reflexivity.
Qed.

End Grid.

(** C1.  For an image of positive width and height and a uniform grid of
    [R >= 1] rows and [C >= 1] columns whose tiles have positive size and do
    not overlap (the centres of neighbouring rows are at least a tile height
    apart, the horizontal gap is any non-negative number), [organizeBoxes] on
    the tiles given in any order returns [rows = R], [cols = C] and the tiles
    in row-major order, each with the row and column of its grid position.
    The clustering loop starts a new row at a box exactly when the distance
    between its [cy] and the anchor [cy] of the open row is at least half
    its own height, and appends it to the open row otherwise. *)
Theorem organize_uniform_grid (W H : Q) (g : UniformGrid) (R C : nat)
  (boxes : list BoundingBox) :
  0 < W -> 0 < H -> wellSeparated g ->
  (0 < R)%nat -> (0 < C)%nat ->
  Permutation boxes (gridBoxes g R C) ->
  organizeBoxes boxes W H
  = {| sortedBoxes := rowMajor W H g R C; rows := R; cols := C |} /\
  (forall rows currentRow currentRowY box rest,
      (h box * 0.5 <= Qabs (cy box - currentRowY) ->
       clusterLoop rows currentRow currentRowY (box :: rest)
       = clusterLoop (rows ++ [currentRow]) [box] (cy box) rest) /\
      (Qabs (cy box - currentRowY) < h box * 0.5 ->
       clusterLoop rows currentRow currentRowY (box :: rest)
       = clusterLoop rows (currentRow ++ [box]) currentRowY rest)).
Proof.
  intros HW HH Hg HR HC HP. split.
  - apply organize_grid; assumption.
  - intros rows0 cur y b rest. cbn [clusterLoop]. unfold sameRow. split.
    + intro Hge. apply Qltb_ge in Hge. rewrite Hge. reflexivity.
    + intro Hlt. apply Qltb_lt in Hlt. rewrite Hlt. reflexivity.
Qed.

Lemma organize_uniform_grid_witness :
  organizeBoxes shuffled2x2 600 800
  = {| sortedBoxes := rowMajor 600 800 demoGrid 2 2; rows := 2; cols := 2 |}.
Proof.
  apply (organize_uniform_grid 600 800 demoGrid 2 2 shuffled2x2).
  - reflexivity.
  - reflexivity.
  - unfold wellSeparated; cbn; lra.
  - lia.
  - lia.
  - unfold shuffled2x2, gridBoxes, gridRow. cbn [seq map concat app].
    apply (Permutation_cons_app [_; _; _] []).
    apply (Permutation_cons_app [] [_; _]).
    apply (Permutation_cons_app [_] []).
    reflexivity.
Defined.

End OrganizerFacts.

(** ** Organizing before and after a dimension sync *)

Module SyncOrganizeFacts.
Import Organizer Editor SyncOrganize.




Section Related.

Variable Rel : PixelBox -> PixelBox -> Prop.

Hypothesis Hcy : forall a a' b b',
    Rel a a' -> Rel b b' ->
    Qle_bool (cy a - cy b) 0 = Qle_bool (cy a' - cy b') 0.
Hypothesis Hcx : forall a a' b b',
    Rel a a' -> Rel b b' ->
    Qle_bool (cx a - cx b) 0 = Qle_bool (cx a' - cx b') 0.
Hypothesis Hrow : forall a a' b b',
    Rel a a' -> Rel b b' -> sameRow b (cy a) = sameRow b' (cy a').







End Related.






End SyncOrganizeFacts.

(** ** The slice pipeline *)

Module PipelineFacts.
Import Pipeline.

Lemma upscale_fallback (env : Env) (tile : nat) (cropBlob : Blob) :
  enhancementFails env tile cropBlob ->
  upscaleSliceWithAI env tile cropBlob "image/png" = cropBlob.
Proof.
  unfold enhancementFails, upscaleSliceWithAI.
  intros [Hkey|[H64|(base64Data & H64 & Hai)]].
  - rewrite Hkey. reflexivity.
  - destruct (negb (apiKey env)); [reflexivity|]. rewrite H64. reflexivity.
  - destruct (negb (apiKey env)); [reflexivity|]. rewrite H64.
    destruct Hai as [->|[->|(parts & -> & [->| ->])]]; reflexivity.
Qed.

Lemma encodedFrom_cons (env : Env) (i : nat) (item : Organizer.Placed)
  (items : list Organizer.Placed) :
  encodedFrom env i (item :: items)
  = match cropOf env item with
    | Some _ => (i, item) :: encodedFrom env (S i) items
    | None => encodedFrom env (S i) items
    end.
Proof.
  unfold encodedFrom. cbn [length seq combine filter snd].
  destruct (cropOf env item); reflexivity.
Qed.

Lemma In_encodedFrom (env : Env) (items : list Organizer.Placed) :
  forall (i k : nat) (item : Organizer.Placed) (cropBlob : Blob),
    nth_error items k = Some item -> cropOf env item = Some cropBlob ->
    In ((i + k)%nat, item) (encodedFrom env i items).
Proof.
  induction items as [|a items IH]; intros i k item cropBlob Hk Hc.
  - destruct k; discriminate.
  - rewrite encodedFrom_cons. destruct k as [|k]; cbn in Hk.
    + injection Hk as ->. rewrite Hc, Nat.add_0_r. left. reflexivity.
    + rewrite <- Nat.add_succ_comm.
      destruct (cropOf env a); [right|]; apply (IH _ _ _ cropBlob Hk Hc).
Qed.

Lemma Forall2_In_left {A B : Type} (R : A -> B -> Prop) (l : list A)
  (l' : list B) (a : A) :
  Forall2 R l l' -> In a l -> exists b, In b l' /\ R a b.
Proof.
  induction 1 as [|a0 b0 l l' HR _ IH]; intros Hin; [contradiction|].
  destruct Hin as [<-|Hin].
  - exists b0. split; [left; reflexivity|exact HR].
  - destruct (IH Hin) as (b & Hb & Hab). exists b. split; [right|]; assumption.
Qed.

(** The loop either stops at the first tile that cannot be decoded, or runs
    through and pushes one tile for each box whose crop encodes. *)
Lemma sliceLoop_cases (env : Env) (items : list Organizer.Placed) :
  forall (i : nat) (acc : list ImageSlice),
    (exists k item,
        nth_error items k = Some item /\ undecodable env (i + k) item /\
        exists reason, sliceLoop env items i acc = Rejected reason) \/
    ((forall k item, nth_error items k = Some item ->
                     ~ undecodable env (i + k) item) /\
     exists out,
       sliceLoop env items i acc = Resolved (acc ++ out) /\
       Forall2 (tileAt env) (encodedFrom env i items) out).
Proof.
  induction items as [|item items IH]; intros i acc.
  - right. split; [intros k item Hk; destruct k; discriminate|].
    exists []. rewrite app_nil_r. split; [reflexivity|constructor].
  - rewrite encodedFrom_cons. cbn [sliceLoop]. fold (cropOf env item).
    destruct (cropOf env item) as [cropBlob|] eqn:Ecrop.
    + destruct (createImageBitmap env _) as [[bw bh]|] eqn:Ebmp.
      * match goal with
        | |- context [sliceLoop env items (S i) (acc ++ [?sl])] =>
            set (tile := sl);
            destruct (IH (S i) (acc ++ [tile]))
              as [(k & it & Hk & Hbad & Hrej)|(Hgood & out & E & HF)]
        end.
        -- left. exists (S k), it. rewrite <- Nat.add_succ_comm.
           split; [exact Hk|]. split; [exact Hbad|exact Hrej].
        -- right. split.
           ++ intros k it Hk. destruct k as [|k]; cbn in Hk.
              ** injection Hk as <-. rewrite Nat.add_0_r.
                 intros (c & Hc & Hnone). rewrite Ecrop in Hc.
                 injection Hc as <-. congruence.
              ** rewrite <- Nat.add_succ_comm. apply Hgood. exact Hk.
           ++ exists (tile :: out). rewrite E, <- app_assoc.
              split; [reflexivity|]. constructor; [|exact HF].
              split; [reflexivity|]. unfold tileOf, tile.
              cbn [row col blob id width height snd].
              split; [reflexivity|]. split; [reflexivity|].
              intros cropBlob' Hc Hfail. fold (cropOf env item) in Hc.
              rewrite Ecrop in Hc. injection Hc as <-.
              rewrite (upscale_fallback env i cropBlob Hfail) in *.
              split; [reflexivity|exact Ebmp].
      * left. exists 0%nat, item. rewrite Nat.add_0_r.
        split; [reflexivity|]. split; [|eexists; reflexivity].
        exists cropBlob. split; [exact Ecrop|exact Ebmp].
    + destruct (IH (S i) acc)
        as [(k & it & Hk & Hbad & Hrej)|(Hgood & out & E & HF)].
      * left. exists (S k), it. rewrite <- Nat.add_succ_comm.
        split; [exact Hk|]. split; [exact Hbad|exact Hrej].
      * right. split.
        -- intros k it Hk. destruct k as [|k]; cbn in Hk.
           ++ injection Hk as <-. intros (c & Hc & _). congruence.
           ++ rewrite <- Nat.add_succ_comm. apply Hgood. exact Hk.
        -- exists out. split; [exact E|exact HF].
Qed.

(** C5, as the code has it.  [generateSlices] fails exactly when the box set
    is empty, or the image cannot be loaded, or no 2D canvas context is
    available, or the result blob of some tile whose crop was encoded cannot
    be decoded to a bitmap.  When none of these holds it completes with the
    rows and columns of the organizer and one tile, in sequence, for every
    box whose crop encodes to a blob (a box whose crop encodes to [null] is
    skipped), each with its loop index as id and the row and column of its
    box.  A failure of the enhancement request for a tile (no key, a
    rejected or empty response, undecodable data) is never fatal by itself:
    the tile carries the crop itself with the dimensions of the crop's own
    bitmap, the tiles after it are still produced, and the tile stops the
    pipeline only if the crop itself cannot be decoded. *)
Theorem generateSlices_failure_policy (env : Env) (boxes : list BoundingBox) :
  ((exists reason, generateSlices env boxes = Rejected reason) <->
   boxes = [] \/ loadImage env = None \/ getContext2d env = false \/
   exists imgWidth imgHeight i item,
     loadImage env = Some (imgWidth, imgHeight) /\
     nth_error
       (Organizer.sortedBoxes
          (Organizer.organizeBoxes boxes imgWidth imgHeight)) i
     = Some item /\
     undecodable env i item) /\
  (forall imgWidth imgHeight,
      boxes <> [] ->
      loadImage env = Some (imgWidth, imgHeight) ->
      getContext2d env = true ->
      let organized := Organizer.organizeBoxes boxes imgWidth imgHeight in
      (forall i item,
          nth_error (Organizer.sortedBoxes organized) i = Some item ->
          ~ undecodable env i item) ->
      exists result,
        generateSlices env boxes = Resolved result /\
        rows (dimensions result) = Organizer.rows organized /\
        cols (dimensions result) = Organizer.cols organized /\
        Forall2 (tileAt env) (encoded env (Organizer.sortedBoxes organized))
          (slices result) /\
        (forall i item cropBlob,
            nth_error (Organizer.sortedBoxes organized) i = Some item ->
            cropOf env item = Some cropBlob ->
            exists sl,
              In sl (slices result) /\ id sl = i /\
              row sl = Organizer.row item /\ col sl = Organizer.col item /\
              (enhancementFails env i cropBlob ->
               blob sl = cropBlob /\
               createImageBitmap env cropBlob
               = Some (width sl, height sl)))) /\
  (forall i item cropBlob,
      cropOf env item = Some cropBlob ->
      enhancementFails env i cropBlob ->
      (undecodable env i item <-> createImageBitmap env cropBlob = None)).
Proof.
  split; [|split].
  - unfold generateSlices. split.
    + intros (reason & Hrej).
      destruct (loadImage env) as [[iw ih]|] eqn:Himg; [|auto].
      destruct boxes as [|b boxes']; [auto|]. cbn [length Nat.eqb] in Hrej.
      destruct (getContext2d env) eqn:Hctx; [|auto]. cbn [negb] in Hrej.
      right. right. right. exists iw, ih.
      destruct (sliceLoop_cases env
                  (Organizer.sortedBoxes
                     (Organizer.organizeBoxes (b :: boxes') iw ih)) 0 [])
        as [(k & it & Hk & Hbad & _)|(_ & out & E & _)].
      * exists k, it. split; [reflexivity|]. split; assumption.
      * rewrite E in Hrej. discriminate.
    + intros [->|[Hload|[Hctx|(iw & ih & i & item & Hload & Hi & Hbad)]]].
      * destruct (loadImage env) as [[iw ih]|]; eexists; reflexivity.
      * rewrite Hload. eexists; reflexivity.
      * destruct (loadImage env) as [[iw ih]|]; [|eexists; reflexivity].
        destruct (length boxes =? 0)%nat; [eexists; reflexivity|].
        rewrite Hctx. eexists; reflexivity.
      * rewrite Hload.
        destruct (length boxes =? 0)%nat; [eexists; reflexivity|].
        destruct (getContext2d env); [|eexists; reflexivity]. cbn [negb].
        destruct (sliceLoop_cases env
                    (Organizer.sortedBoxes
                       (Organizer.organizeBoxes boxes iw ih)) 0 [])
          as [(_ & _ & _ & _ & reason & E)|(Hgood & _)].
        -- rewrite E. eexists; reflexivity.
        -- exfalso. exact (Hgood i item Hi Hbad).
  - intros iw ih Hne Hload Hctx organized Hgood.
    unfold generateSlices. rewrite Hload, Hctx.
    destruct boxes as [|b boxes']; [congruence|]. cbn [length Nat.eqb negb].
    fold organized.
    destruct (sliceLoop_cases env (Organizer.sortedBoxes organized) 0 [])
      as [(k & it & Hk & Hbad & _)|(_ & out & E & HF)];
      [exfalso; exact (Hgood k it Hk Hbad)|].
    rewrite E. eexists. split; [reflexivity|].
    cbn [slices dimensions rows cols app].
    split; [reflexivity|]. split; [reflexivity|]. split; [exact HF|].
    intros i item cropBlob Hi Hc.
    pose proof (In_encodedFrom env _ 0 i item cropBlob Hi Hc) as Hin.
    destruct (Forall2_In_left _ _ _ _ HF Hin) as (sl & Hsl & Hid & Hrow & Hcol & Hfb).
    cbn [fst snd] in *. exists sl. split; [exact Hsl|]. split; [exact Hid|].
    split; [exact Hrow|]. split; [exact Hcol|].
    intro Hfail. apply Hfb; [exact Hc|]. rewrite Hid. exact Hfail.
  - intros i item cropBlob Hc Hfail.
    pose proof (upscale_fallback env i cropBlob Hfail) as Hup.
    split.
    + intros (c & Hc' & Hnone). rewrite Hc in Hc'. injection Hc' as <-.
      rewrite Hup in Hnone. exact Hnone.
    + intro Hnone. exists cropBlob. split; [exact Hc|]. rewrite Hup. exact Hnone.
Qed.

Lemma generateSlices_failure_policy_witness :
  exists result,
    generateSlices rejectingEnv [Editor.unitBox; Editor.sourceBox200]
    = Resolved result /\
    Forall2 (tileAt rejectingEnv)
      (encoded rejectingEnv
         (Organizer.sortedBoxes
            (Organizer.organizeBoxes [Editor.unitBox; Editor.sourceBox200]
               1000 1000)))
      (slices result).
Proof.
  destruct (generateSlices_failure_policy rejectingEnv
              [Editor.unitBox; Editor.sourceBox200]) as (_ & H & _).
  destruct (H 1000 1000) as (result & E & _ & _ & HF & _).
  - discriminate.
  - reflexivity.
  - reflexivity.
  - intros i item _ (c & _ & Hnone). discriminate.
  - exists result. split; [exact E|exact HF].
Defined.

(** C5 as worded fails in the "only if" direction: without a 2D canvas
    context [generateSlices] throws "Canvas error" on a non-empty box set. *)
Lemma generateSlices_fails_nonempty_counterexample :
  [Editor.unitBox] <> [] /\
  generateSlices noCanvasEnv [Editor.unitBox] = Rejected "Canvas error".
Proof. split; [discriminate|reflexivity]. Qed.

End PipelineFacts.

(** ** The organizer on arbitrary boxes *)

Module OrganizerLaws.
Import Organizer.

Lemma Array_sort_length {A : Type} (c : A -> A -> Q) (l : list A) :
  length (Array_sort c l) = length l.
Proof.
  induction l as [|a l IH]; [reflexivity|].
  cbn [Array_sort fold_right]. fold (Array_sort c l).
  cbn [length]. rewrite <- IH. generalize (Array_sort c l). intro s.
  induction s as [|b s IHs]; cbn [sort_insert]; [reflexivity|].
  destruct (Qle_bool (c a b) 0); cbn [length]; [reflexivity|].
  rewrite IHs. reflexivity.
Qed.

Lemma clusterLoop_concat (rest : list PixelBox) :
  forall rows cur currentRowY,
    concat (clusterLoop rows cur currentRowY rest)
    = concat rows ++ cur ++ rest.
Proof.
  induction rest as [|b rest IH]; intros rows0 cur y0; cbn [clusterLoop].
  - rewrite concat_app. cbn [concat]. rewrite !app_nil_r. reflexivity.
  - destruct (sameRow b y0); rewrite IH.
    + rewrite <- app_assoc. reflexivity.
    + rewrite concat_app. cbn [concat]. rewrite app_nil_r, <- app_assoc.
      reflexivity.
Qed.

Lemma clusterLoop_nonempty (rest : list PixelBox) :
  forall rows cur currentRowY,
    Forall (fun r => r <> []) rows -> cur <> [] ->
    Forall (fun r => r <> []) (clusterLoop rows cur currentRowY rest).
Proof.
  induction rest as [|b rest IH]; intros rows0 cur y0 Hrows Hcur;
    cbn [clusterLoop].
  - apply Forall_app. split; [exact Hrows|]. repeat constructor. exact Hcur.
  - destruct (sameRow b y0); apply IH.
    + exact Hrows.
    + destruct cur; discriminate.
    + apply Forall_app. split; [exact Hrows|]. repeat constructor. exact Hcur.
    + discriminate.
Qed.

Lemma clusterRows_concat (l : list PixelBox) : concat (clusterRows l) = l.
Proof.
  destruct l as [|a l]; [reflexivity|]. cbn [clusterRows].
  rewrite clusterLoop_concat. reflexivity.
Qed.

Lemma clusterRows_nonempty (l : list PixelBox) :
  Forall (fun r => r <> []) (clusterRows l).
Proof.
  destruct l as [|a l]; [constructor|]. cbn [clusterRows].
  apply clusterLoop_nonempty; [constructor|discriminate].
Qed.

Lemma forEachRow_unfold (rows0 : list (list PixelBox)) :
  forall rowIndex maxCols acc,
    forEachRow rows0 rowIndex maxCols acc
    = (Nat.max maxCols (list_max (map (@length PixelBox) rows0)),
       acc ++ concat
                (mapi_from rowIndex
                   (fun rowItems r =>
                      mapi (fun b c => {| box := b; row := r; col := c |})
                        (Array_sort (fun a b => cx a - cx b) rowItems))
                   rows0)).
Proof.
  induction rows0 as [|r rows0 IH]; intros rowIndex maxCols acc.
  - cbn. rewrite Nat.max_0_r, app_nil_r. reflexivity.
  - cbn [forEachRow]. rewrite IH, Array_sort_length.
    cbn [map mapi_from concat]. unfold list_max. cbn [fold_right]. f_equal.
    + destruct (Nat.ltb_spec maxCols (length r)); lia.
    + rewrite <- app_assoc. reflexivity.
Qed.

(** The shape of every result: the rows of the clustering pass, each sorted
    by [cx] and numbered. *)
Lemma organize_shape (boxes : list BoundingBox) (W H : Q) :
  let sorted := Array_sort (fun a b => cy a - cy b) (map (toPixel W H) boxes) in
  let rows0 := clusterRows sorted in
  organizeBoxes boxes W H
  = {| sortedBoxes :=
         concat
           (mapi_from 0
              (fun rowItems r =>
                 mapi (fun b c => {| box := b; row := r; col := c |})
                   (Array_sort (fun a b => cx a - cx b) rowItems))
              rows0);
       rows := length rows0;
       cols := list_max (map (@length PixelBox) rows0) |}.
Proof.
  cbv zeta. unfold organizeBoxes. rewrite forEachRow_unfold. reflexivity.
Qed.

Lemma map_box_mapi_from (r : nat) (l : list PixelBox) (k : nat) :
  map box (mapi_from k (fun b c => {| box := b; row := r; col := c |}) l) = l.
Proof.
  revert k. induction l as [|a l IH]; intro k; [reflexivity|].
  cbn [mapi_from map box]. f_equal. apply IH.
Qed.

Lemma placed_boxes_perm (rows0 : list (list PixelBox)) (k : nat) :
  Permutation
    (map box
       (concat
          (mapi_from k
             (fun rowItems r =>
                mapi (fun b c => {| box := b; row := r; col := c |})
                  (Array_sort (fun a b => cx a - cx b) rowItems))
             rows0)))
    (concat rows0).
Proof.
  revert k. induction rows0 as [|r rows0 IH]; intro k; [reflexivity|].
  cbn [mapi_from concat]. rewrite map_app. apply Permutation_app.
  - unfold mapi. rewrite map_box_mapi_from. apply (Array_sort_perm cx).
  - apply IH.
Qed.

(** X1.  Whatever the boxes and the image size, the organizer neither loses
    nor duplicates a box: the boxes of the sequence are a rearrangement of
    the input, each with the pixel fields computed from it. *)
Theorem organize_rearranges (boxes : list BoundingBox) (W H : Q) :
  Permutation
    (map (fun o => bbox (box o)) (sortedBoxes (organizeBoxes boxes W H)))
    boxes /\
  Forall (fun o => box o = toPixel W H (bbox (box o)))
    (sortedBoxes (organizeBoxes boxes W H)) /\
  length (sortedBoxes (organizeBoxes boxes W H)) = length boxes.
Proof.
  assert (HP : Permutation
                 (map box (sortedBoxes (organizeBoxes boxes W H)))
                 (map (toPixel W H) boxes)).
  { rewrite organize_shape. cbn [sortedBoxes].
    rewrite placed_boxes_perm, clusterRows_concat.
    apply (Array_sort_perm cy). }
  split; [|split].
  - rewrite <- (map_map box bbox).
    rewrite (Permutation_map bbox HP), map_map. cbn.
    rewrite map_id. reflexivity.
  - apply Forall_forall. intros o Ho.
    assert (Hin : In (box o) (map (toPixel W H) boxes)).
    { apply (Permutation_in _ HP). apply in_map. exact Ho. }
    apply in_map_iff in Hin. destruct Hin as (b & <- & _). reflexivity.
  - rewrite <- (length_map box), (Permutation_length HP), length_map.
    reflexivity.
Qed.

Lemma rows_counts {A : Type} (L : list (list A)) :
  Forall (fun r => r <> []) L ->
  (length L <= length (concat L))%nat /\
  (list_max (map (@length A) L) <= length (concat L))%nat /\
  (length (concat L) <= length L * list_max (map (@length A) L))%nat /\
  (L <> [] -> (1 <= list_max (map (@length A) L))%nat).
Proof.
  induction 1 as [|r L Hr HF (IH1 & IH2 & IH3 & IH4)].
  - cbn. repeat split; try lia. congruence.
  - cbn [concat map length]. unfold list_max in *. cbn [fold_right].
    rewrite length_app.
    assert (Hlen : (1 <= length r)%nat).
    { destruct r; [congruence|cbn; lia]. }
    repeat split; try lia. nia.
Qed.

(** X2.  The grid dimensions are bounded by the number of boxes: there are at
    most as many rows, and at most as many columns, as boxes; a non-empty
    input gives at least one row and one column; and [rows * cols] cells are
    enough to hold every box. *)
Theorem organize_counts (boxes : list BoundingBox) (W H : Q) :
  let res := organizeBoxes boxes W H in
  (rows res <= length boxes)%nat /\
  (cols res <= length boxes)%nat /\
  (length boxes <= rows res * cols res)%nat /\
  (boxes <> [] -> (1 <= rows res)%nat /\ (1 <= cols res)%nat).
Proof.
  cbv zeta. rewrite organize_shape. cbn [rows cols].
  set (sorted := Array_sort (fun a b => cy a - cy b)
                   (map (toPixel W H) boxes)).
  destruct (rows_counts (clusterRows sorted) (clusterRows_nonempty sorted))
    as (H1 & H2 & H3 & H4).
  rewrite clusterRows_concat in H1, H2, H3.
  assert (Hlen : length sorted = length boxes)
    by (unfold sorted; rewrite Array_sort_length, length_map; reflexivity).
  rewrite Hlen in H1, H2, H3.
  split; [exact H1|]. split; [exact H2|]. split; [exact H3|].
  intro Hne.
  assert (Hrows : clusterRows sorted <> []).
  { intro E. pose proof (clusterRows_concat sorted) as Hc.
    rewrite E in Hc. cbn in Hc. rewrite <- Hc in Hlen.
    destruct boxes; [congruence|discriminate]. }
  split; [|exact (H4 Hrows)].
  destruct (clusterRows sorted); [congruence|cbn; lia].
Qed.

Lemma map_pos_mapi_from (r : nat) (l : list PixelBox) (k : nat) :
  map (fun o => (row o, col o))
    (mapi_from k (fun b c => {| box := b; row := r; col := c |}) l)
  = map (fun c => (r, c)) (seq k (length l)).
Proof.
  revert k. induction l as [|a l IH]; intro k; [reflexivity|].
  cbn [mapi_from map length seq row col]. f_equal. apply IH.
Qed.

Lemma list_max_attained (l : list nat) : l <> [] -> In (list_max l) l.
Proof.
  induction l as [|a l IH]; [congruence|]. intros _.
  unfold list_max in *. cbn [fold_right].
  destruct l as [|b l].
  - left. cbn. lia.
  - destruct (Nat.max_spec a (fold_right Nat.max 0%nat (b :: l)))
      as [(_ & ->)|(_ & ->)].
    + right. apply IH. discriminate.
    + left. reflexivity.
Qed.

Lemma positions_rows (rows0 : list (list PixelBox)) (k : nat) :
  map (fun o => (row o, col o))
    (concat
       (mapi_from k
          (fun rowItems r =>
             mapi (fun b c => {| box := b; row := r; col := c |})
               (Array_sort (fun a b => cx a - cx b) rowItems))
          rows0))
  = concat (mapi_from k (fun len r => map (fun c => (r, c)) (seq 0 len))
              (map (@length PixelBox) rows0)).
Proof.
  revert k. induction rows0 as [|r rows0 IH]; intro k; [reflexivity|].
  cbn [mapi_from map concat]. rewrite map_app, IH. f_equal.
  unfold mapi. rewrite map_pos_mapi_from, Array_sort_length. reflexivity.
Qed.

(** X3.  Rows and columns are numbered from 0 without gaps and the sequence
    is row-major: there are row lengths [lens], one per row and each at
    least 1, such that the (row, col) pairs of the sequence are
    (0,0) .. (0,len0-1), (1,0) .. (1,len1-1), and so on; [cols] is the
    largest of them. *)
Theorem organize_numbering (boxes : list BoundingBox) (W H : Q) :
  let res := organizeBoxes boxes W H in
  exists lens : list nat,
    length lens = rows res /\
    Forall (fun n => (1 <= n <= cols res)%nat) lens /\
    (lens <> [] -> In (cols res) lens) /\
    map (fun o => (row o, col o)) (sortedBoxes res)
    = concat (mapi (fun len r => map (fun c => (r, c)) (seq 0 len)) lens).
Proof.
  cbv zeta. rewrite organize_shape. cbn [rows cols sortedBoxes].
  set (sorted := Array_sort (fun a b => cy a - cy b)
                   (map (toPixel W H) boxes)).
  pose proof (clusterRows_nonempty sorted) as Hne.
  set (rows0 := clusterRows sorted) in *.
  exists (map (@length PixelBox) rows0).
  split; [apply length_map|]. split; [|split].
  - apply Forall_forall. intros n Hn. apply in_map_iff in Hn.
    destruct Hn as (r & <- & Hr). split.
    + rewrite Forall_forall in Hne. specialize (Hne r Hr).
      destruct r; [congruence|cbn; lia].
    + assert (Hall : Forall (fun k => (k <= list_max (map (@length PixelBox) rows0))%nat)
                       (map (@length PixelBox) rows0))
        by (apply list_max_le; lia).
      rewrite Forall_forall in Hall. apply Hall. apply in_map. exact Hr.
  - apply list_max_attained.
  - apply positions_rows.
Qed.

Lemma In_mapi_from {A B : Type} (f : A -> nat -> B) (l : list A) (k : nat)
  (y : B) :
  In y (mapi_from k f l) ->
  exists i a, nth_error l i = Some a /\ y = f a (k + i)%nat.
Proof.
  revert k. induction l as [|a l IH]; intros k Hy; [contradiction|].
  cbn [mapi_from] in Hy. destruct Hy as [<-|Hy].
  - exists 0%nat, a. rewrite Nat.add_0_r. split; reflexivity.
  - destruct (IH _ Hy) as (i & b & Hb & ->).
    exists (S i), b. rewrite Nat.add_succ_r. split; [exact Hb|reflexivity].
Qed.

Lemma sorted_app_cross {A : Type} (R : A -> A -> Prop) (l1 l2 : list A) :
  StronglySorted R (l1 ++ l2) ->
  StronglySorted R l2 /\ (forall a b, In a l1 -> In b l2 -> R a b).
Proof.
  induction l1 as [|x l1 IH]; cbn [app]; intro Hs.
  - split; [exact Hs|]. intros a b [].
  - inversion Hs as [|? ? Hs' Hx]; subst.
    destruct (IH Hs') as (H2 & Hcross). split; [exact H2|].
    intros a b [<-|Ha] Hb.
    + rewrite Forall_forall in Hx. apply Hx. apply in_or_app. right. exact Hb.
    + apply Hcross; assumption.
Qed.

Lemma sorted_concat_rows {A : Type} (R : A -> A -> Prop) (L : list (list A)) :
  StronglySorted R (concat L) ->
  forall i j l1 l2 a b,
    nth_error L i = Some l1 -> nth_error L j = Some l2 -> (i < j)%nat ->
    In a l1 -> In b l2 -> R a b.
Proof.
  induction L as [|l L IH]; intros Hs i j l1 l2 a b Hi Hj Hlt Ha Hb.
  - destruct i; discriminate.
  - cbn [concat] in Hs. destruct (sorted_app_cross R _ _ Hs) as (Hs' & Hcross).
    destruct j as [|j]; [lia|]. cbn [nth_error] in Hj.
    destruct i as [|i]; cbn [nth_error] in Hi.
    + injection Hi as <-. apply Hcross; [exact Ha|].
      apply in_concat. exists l2. split; [|exact Hb].
      eapply nth_error_In. exact Hj.
    + apply (IH Hs' i j l1 l2); try assumption. lia.
Qed.

Lemma sorted_nth {A : Type} (R : A -> A -> Prop) (l : list A) :
  StronglySorted R l ->
  forall i j a b,
    nth_error l i = Some a -> nth_error l j = Some b -> (i < j)%nat -> R a b.
Proof.
  induction 1 as [|x l Hs IH Hx]; intros i j a b Hi Hj Hlt.
  - destruct i; discriminate.
  - destruct j as [|j]; [lia|]. cbn [nth_error] in Hj.
    destruct i as [|i]; cbn [nth_error] in Hi.
    + injection Hi as <-. rewrite Forall_forall in Hx. apply Hx.
      eapply nth_error_In. exact Hj.
    + apply (IH i j); try assumption. lia.
Qed.

(** X4.  The numbering follows the geometry: a box in an earlier row has its
    centre no lower than ([cy] at most that of) any box in a later row, and
    within a row a box in an earlier column has its centre no further right
    ([cx] at most that of) than a box in a later column. *)
Theorem organize_monotone (boxes : list BoundingBox) (W H : Q)
  (o1 o2 : Placed) :
  In o1 (sortedBoxes (organizeBoxes boxes W H)) ->
  In o2 (sortedBoxes (organizeBoxes boxes W H)) ->
  ((row o1 < row o2)%nat -> cy (box o1) <= cy (box o2)) /\
  (row o1 = row o2 -> (col o1 < col o2)%nat -> cx (box o1) <= cx (box o2)).
Proof.
  rewrite organize_shape. cbn [sortedBoxes].
  set (sorted := Array_sort (fun a b => cy a - cy b)
                   (map (toPixel W H) boxes)).
  assert (Hsorted : StronglySorted (fun a b => cy a <= cy b)
                      (concat (clusterRows sorted))).
  { rewrite clusterRows_concat. apply (Array_sort_sorted cy). }
  set (rows0 := clusterRows sorted) in *.
  assert (Hfind : forall o,
             In o (concat
                     (mapi_from 0
                        (fun rowItems r =>
                           mapi (fun b c => {| box := b; row := r; col := c |})
                             (Array_sort (fun a b => cx a - cx b) rowItems))
                        rows0)) ->
             exists rowItems,
               nth_error rows0 (row o) = Some rowItems /\
               nth_error (Array_sort (fun a b => cx a - cx b) rowItems) (col o)
               = Some (box o)).
  { intros o Ho. apply in_concat in Ho. destruct Ho as (placed & Hp & Ho).
    apply In_mapi_from in Hp. destruct Hp as (r & rowItems & Hr & ->).
    apply In_mapi_from in Ho. destruct Ho as (c & b & Hb & ->).
    exists rowItems. cbn. split; assumption. }
  intros H1 H2.
  destruct (Hfind o1 H1) as (items1 & Hr1 & Hc1).
  destruct (Hfind o2 H2) as (items2 & Hr2 & Hc2).
  split.
  - intro Hlt.
    apply (sorted_concat_rows _ rows0 Hsorted (row o1) (row o2) items1 items2);
      try assumption.
    + apply (Permutation_in _ (Array_sort_perm cx items1)).
      eapply nth_error_In. exact Hc1.
    + apply (Permutation_in _ (Array_sort_perm cx items2)).
      eapply nth_error_In. exact Hc2.
  - intros Heq Hlt. rewrite Heq, Hr2 in Hr1. injection Hr1 as <-.
    exact (sorted_nth _ _ (Array_sort_sorted cx items2) _ _ _ _ Hc1 Hc2 Hlt).
Qed.

Lemma organize_monotone_witness :
  cy (toPixel 600 800 (gridBox demoGrid 0 1))
  <= cy (toPixel 600 800 (gridBox demoGrid 1 0)).
Proof.
  refine (proj1 (organize_monotone shuffled2x2 600 800
                   {| box := toPixel 600 800 (gridBox demoGrid 0 1);
                      row := 0; col := 1 |}
                   {| box := toPixel 600 800 (gridBox demoGrid 1 0);
                      row := 1; col := 0 |} _ _) _).
  - vm_compute. right. left. reflexivity.
  - vm_compute. right. right. left. reflexivity.
  - cbn. lia.
Defined.

(** *** Boxes without height *)

Lemma clusterLoop_singletons (rest : list PixelBox) :
  Forall (fun b => h b <= 0) rest ->
  forall rows0 cur currentRowY,
    clusterLoop rows0 cur currentRowY rest
    = rows0 ++ [cur] ++ map (fun b => [b]) rest.
Proof.
  induction 1 as [|b rest Hb _ IH]; intros rows0 cur y0; cbn [clusterLoop].
  - reflexivity.
  - assert (E : sameRow b y0 = false).
    { unfold sameRow. apply Qltb_ge.
      pose proof (Qabs_nonneg (cy b - y0)). lra. }
    rewrite E, IH, <- app_assoc. reflexivity.
Qed.

Lemma singleton_rows_positions (l : list PixelBox) (k : nat) :
  concat (mapi_from k (fun len r => map (fun c => (r, c)) (seq 0 len))
            (map (@length PixelBox) (map (fun b => [b]) l)))
  = map (fun r => (r, 0%nat)) (seq k (length l)).
Proof.
  revert k. induction l as [|a l IH]; intro k; [reflexivity|].
  cbn [map length mapi_from concat seq app]. f_equal. apply IH.
Qed.

(** X5.  When no box has a positive pixel height (flat boxes, or an image of
    height 0), the row test never succeeds: every box is a row of its own, so
    [rows] is the number of boxes, [cols] is 1 (0 for no boxes) and the
    sequence is numbered (0,0), (1,0), (2,0), ... *)
Theorem organize_flat_boxes (boxes : list BoundingBox) (W H : Q) :
  Forall (fun b => h (toPixel W H b) <= 0) boxes ->
  let res := organizeBoxes boxes W H in
  rows res = length boxes /\
  cols res = Nat.min 1 (length boxes) /\
  map (fun o => (row o, col o)) (sortedBoxes res)
  = map (fun r => (r, 0%nat)) (seq 0 (length boxes)).
Proof.
  intro Hflat. cbv zeta. rewrite organize_shape. cbn [rows cols sortedBoxes].
  set (sorted := Array_sort (fun a b => cy a - cy b)
                   (map (toPixel W H) boxes)).
  assert (Hlen : length sorted = length boxes)
    by (unfold sorted; rewrite Array_sort_length, length_map; reflexivity).
  assert (Hs : Forall (fun b => h b <= 0) sorted).
  { eapply Permutation_Forall;
      [apply Permutation_sym; apply (Array_sort_perm cy)|].
    apply Forall_map. exact Hflat. }
  assert (Hrows : clusterRows sorted = map (fun b => [b]) sorted).
  { destruct sorted as [|a rest]; [reflexivity|]. cbn [clusterRows map].
    inversion Hs as [|? ? _ Hrest]; subst.
    rewrite (clusterLoop_singletons rest Hrest). reflexivity. }
  rewrite Hrows, positions_rows, singleton_rows_positions, length_map, Hlen.
  split; [reflexivity|]. split; [|reflexivity].
  rewrite <- Hlen. clear. induction sorted as [|a l IH]; [reflexivity|].
  cbn [map length]. unfold list_max in *. cbn [fold_right].
  rewrite IH. destruct l; reflexivity.
Qed.

Lemma organize_flat_boxes_witness :
  rows (organizeBoxes shuffled2x2 600 0) = 4%nat.
Proof.
  apply (organize_flat_boxes shuffled2x2 600 0).
  repeat constructor; apply Qle_bool_iff; vm_compute; reflexivity.
Defined.

End OrganizerLaws.

(** ** More on the box editor, for any number system *)

Module NumericLaws.
Import Numeric.

Section Arrays.

Context {T : Type}.

Lemma replaceAt_length (j : nat) (b : Box T) (l : list (Box T)) :
  length (replaceAt j b l) = length l.
Proof.
  revert j. induction l as [|a l IH]; intro j; [destruct j; reflexivity|].
  destruct j as [|j]; cbn; [reflexivity|]. rewrite IH. reflexivity.
Qed.

Lemma replaceAt_other (j k : nat) (b : Box T) (l : list (Box T)) :
  k <> j -> nth_error (replaceAt j b l) k = nth_error l k.
Proof.
  revert j k. induction l as [|a l IH]; intros j k Hne.
  - destruct j; reflexivity.
  - destruct j as [|j], k as [|k]; cbn; try reflexivity; try lia.
    apply IH. lia.
Qed.

Lemma replaceAt_twice (j : nat) (b c : Box T) (l : list (Box T)) :
  replaceAt j c (replaceAt j b l) = replaceAt j c l.
Proof.
  revert j. induction l as [|a l IH]; intro j; [destruct j; reflexivity|].
  destruct j as [|j]; cbn; [reflexivity|]. rewrite IH. reflexivity.
Qed.

Lemma replaceAt_same (j : nat) (b : Box T) (l : list (Box T)) :
  (j < length l)%nat -> nth_error (replaceAt j b l) j = Some b.
Proof.
  revert j. induction l as [|a l IH]; intros j Hlt; [cbn in Hlt; lia|].
  destruct j as [|j]; cbn; [reflexivity|]. apply IH. cbn in Hlt. lia.
Qed.

Lemma replaceAt_last (b c : Box T) (l : list (Box T)) :
  replaceAt (length l) c (l ++ [b]) = l ++ [c].
Proof. induction l as [|a l IH]; cbn; [reflexivity|]. rewrite IH. reflexivity. Qed.

Lemma nth_error_snoc_other (b : Box T) (l : list (Box T)) (k : nat) :
  k <> length l -> nth_error (l ++ [b]) k = nth_error l k.
Proof.
  intro Hne. destruct (Nat.lt_ge_cases k (length l)) as [Hlt|Hge].
  - apply nth_error_app1. exact Hlt.
  - assert (H1 : nth_error l k = None) by (apply nth_error_None; exact Hge).
    rewrite H1. apply nth_error_None. rewrite length_app. cbn. lia.
Qed.

Lemma spread_complete (target b : Box T) (u : PartialBox T) :
  spreadUndefined u = Some b -> spread target u = b.
Proof.
  unfold spreadUndefined, spread.
  destruct (u_ymin u), (u_xmin u), (u_ymax u), (u_xmax u); try discriminate.
  intros [= <-]. reflexivity.
Qed.

End Arrays.

Section Steps.

Context {T : Type} {num : Number T}.

(** What [updateBox] at the active index leaves alone. *)
Lemma updateBox_frame (s s' : Session T) (j : nat) (u : PartialBox T) :
  updateBox j u s = Next s' ->
  (forall k, k <> j -> nth_error (boxes s') k = nth_error (boxes s) k) /\
  (length (boxes s') = length (boxes s) \/
   (j = length (boxes s) /\ length (boxes s') = S (length (boxes s)))) /\
  ((j < length (boxes s))%nat -> length (boxes s') = length (boxes s)) /\
  selectedBoxIndex s' = selectedBoxIndex s /\
  scale s' = scale s /\
  activeBoxIndex s' = activeBoxIndex s /\
  interactionMode s' = interactionMode s /\
  resizeHandle s' = resizeHandle s /\
  startPos s' = startPos s /\
  startBoxState s' = startBoxState s /\
  initialBoxes s' = initialBoxes s.
Proof.
  unfold updateBox.
  destruct (nth_error (boxes s) j) as [target|] eqn:Et.
  - intros [= <-]. cbn. split; [intros k Hk; apply replaceAt_other; exact Hk|].
    split; [left; apply replaceAt_length|].
    split; [intros _; apply replaceAt_length|]. repeat split; reflexivity.
  - destruct (Nat.eqb_spec j (length (boxes s))) as [->|Hne]; [|discriminate].
    destruct (spreadUndefined u) as [b|]; [|discriminate].
    intros [= <-]. cbn.
    split; [intros k Hk; apply nth_error_snoc_other; exact Hk|].
    split; [right; split; [reflexivity|rewrite length_app; cbn; lia]|].
    split; [lia|]. repeat split; reflexivity.
Qed.

Lemma setBoxes_same (s : Session T) : setBoxes (boxes s) s = s.
Proof. destruct s; reflexivity. Qed.

(** Either the state is such that pointer moves do nothing, or a pointer
    move over a mounted container updates the active box with four bounds
    computed from the snapshot. *)
Lemma pointer_move_cases (s : Session T) :
  (forall x y c boxes',
      handlePointerMove x y c (setBoxes boxes' s) = Next (setBoxes boxes' s)) \/
  (exists j snap,
      activeBoxIndex s = Some j /\ startBoxState s = Some snap /\
      forall x y,
        (forall boxes',
            handlePointerMove x y None (setBoxes boxes' s)
            = Next (setBoxes boxes' s)) /\
        (forall rect, exists v1 v2 v3 v4,
            forall boxes',
              handlePointerMove x y (Some rect) (setBoxes boxes' s)
              = updateBox j {| u_ymin := Some v1; u_xmin := Some v2;
                               u_ymax := Some v3; u_xmax := Some v4 |}
                  (setBoxes boxes' s))).
Proof.
  unfold handlePointerMove, deltaXOf, deltaYOf.
  cbn [activeBoxIndex startBoxState interactionMode resizeHandle startPos
       setBoxes].
  destruct (activeBoxIndex s) as [j|] eqn:Ej; [|left; reflexivity].
  destruct (startBoxState s) as [snap|] eqn:Eb;
    [|left; intros x y [rect|] boxes'; reflexivity].
  destruct (interactionMode s) as [[|]|] eqn:Em;
    [| |left; intros x y [rect|] boxes'; reflexivity].
  - right. exists j, snap. split; [reflexivity|]. split; [reflexivity|].
    intros x y. split; [reflexivity|]. intro rect. unfold moveUpdates.
    do 4 eexists. intro boxes'. reflexivity.
  - destruct (resizeHandle s) as [hd|] eqn:Eh;
      [|left; intros x y [rect|] boxes'; reflexivity].
    destruct (String.eqb hd "") eqn:Ee;
      [left; intros x y [rect|] boxes'; reflexivity|].
    right. exists j, snap. split; [reflexivity|]. split; [reflexivity|].
    intros x y. split; [reflexivity|]. intro rect. unfold resizeUpdates.
    do 4 eexists. intro boxes'. reflexivity.
Qed.

(** An update with four bounds overwrites an earlier update at the same
    index. *)
Lemma updateBox_twice (s s1 : Session T) (j : nat) (u : PartialBox T)
  (v1 v2 v3 v4 : T) :
  updateBox j u s = Next s1 ->
  s1 = setBoxes (boxes s1) s /\
  updateBox j {| u_ymin := Some v1; u_xmin := Some v2;
                 u_ymax := Some v3; u_xmax := Some v4 |} s1
  = updateBox j {| u_ymin := Some v1; u_xmin := Some v2;
                   u_ymax := Some v3; u_xmax := Some v4 |} s.
Proof.
  unfold updateBox.
  destruct (nth_error (boxes s) j) as [target|] eqn:Et.
  - intros [= <-]. split; [reflexivity|]. cbn [boxes setBoxes].
    assert (Hlt : (j < length (boxes s))%nat)
      by (apply nth_error_Some; congruence).
    rewrite (replaceAt_same j _ _ Hlt).
    unfold setBoxes. cbn. rewrite replaceAt_twice. reflexivity.
  - destruct (Nat.eqb_spec j (length (boxes s))) as [->|Hne]; [|discriminate].
    destruct (spreadUndefined u) as [b|]; [|discriminate].
    intros [= <-]. split; [reflexivity|]. cbn [boxes setBoxes].
    assert (H1 : nth_error (boxes s ++ [b]) (length (boxes s)) = Some b).
    { rewrite nth_error_app2, Nat.sub_diag by lia. reflexivity. }
    rewrite H1, replaceAt_last. reflexivity.
Qed.

Lemma pointer_move_total (s : Session T) (clientX clientY : T)
  (container : option (DOMRect T)) :
  tracking s ->
  exists s', handlePointerMove clientX clientY container s = Next s'.
Proof.
  intro Htrack. unfold handlePointerMove.
  destruct (activeBoxIndex s) as [j|] eqn:Ej; [|eauto].
  destruct (startBoxState s) as [snap|] eqn:Eb; [|eauto].
  destruct container as [rect|]; [|eauto].
  pose proof (Htrack j snap Ej Eb) as Hlt.
  assert (Hupd : forall u, exists s', updateBox j u s = Next s').
  { intro u. unfold updateBox.
    destruct (nth_error (boxes s) j) eqn:Et; [eauto|].
    apply nth_error_None in Et. lia. }
  destruct (interactionMode s) as [[|]|]; [apply Hupd| |eauto].
  destruct (resizeHandle s) as [hd|]; [|eauto].
  destruct (String.eqb hd ""); [eauto|apply Hupd].
Qed.

Lemma pointer_move_keeps (s s' : Session T) (clientX clientY : T)
  (container : option (DOMRect T)) :
  handlePointerMove clientX clientY container s = Next s' ->
  (tracking s -> length (boxes s') = length (boxes s)) /\
  selectedBoxIndex s' = selectedBoxIndex s /\
  activeBoxIndex s' = activeBoxIndex s /\
  startBoxState s' = startBoxState s /\
  initialBoxes s' = initialBoxes s.
Proof.
  intro Hmove. rewrite <- (setBoxes_same s) in Hmove.
  assert (Hsame : Next s = Next s' ->
                  (tracking s -> length (boxes s') = length (boxes s)) /\
                  selectedBoxIndex s' = selectedBoxIndex s /\
                  activeBoxIndex s' = activeBoxIndex s /\
                  startBoxState s' = startBoxState s /\
                  initialBoxes s' = initialBoxes s)
    by (intros [= <-]; repeat split; reflexivity).
  destruct (pointer_move_cases s) as [Hidle|(j & snap & Hj & Hb & Hcases)].
  - rewrite Hidle, setBoxes_same in Hmove. exact (Hsame Hmove).
  - destruct (Hcases clientX clientY) as (Hnone & Hsome).
    destruct container as [rect|].
    + destruct (Hsome rect) as (v1 & v2 & v3 & v4 & Hupd).
      rewrite Hupd, setBoxes_same in Hmove.
      destruct (updateBox_frame s s' j _ Hmove)
        as (_ & _ & Hin & Hsel & _ & Hact & _ & _ & _ & Hsnap & Hinit).
      split; [intro Htrack; apply Hin; exact (Htrack j snap Hj Hb)|].
      repeat split; assumption.
    + rewrite Hnone, setBoxes_same in Hmove. exact (Hsame Hmove).
Qed.

Lemma pointer_moves_run (moves : list (Event T)) :
  Forall isPointerMove moves ->
  forall s,
    tracking s ->
    exists s',
      run moves s = Next s' /\
      selectedBoxIndex s' = selectedBoxIndex s /\
      length (boxes s') = length (boxes s).
Proof.
  induction 1 as [|e moves He _ IH]; intros s Htrack.
  - exists s. repeat split; reflexivity.
  - destruct e; cbn [isPointerMove] in He; try contradiction.
    destruct (pointer_move_total s clientX clientY container Htrack)
      as (s1 & E1).
    destruct (pointer_move_keeps s s1 _ _ _ E1)
      as (Hlen & Hsel & Hact & Hsnap & _).
    specialize (Hlen Htrack).
    destruct (IH s1) as (s' & E & Hsel' & Hlen').
    { intros j b Hj Hb. rewrite Hlen. apply (Htrack j b); congruence. }
    exists s'. cbn [run handle]. rewrite E1.
    split; [exact E|]. split; congruence.
Qed.

Lemma run_then_up (l : list (Event T)) :
  forall t out, run l t = Next out ->
                run (l ++ [PointerUp]) t = handlePointerUp out.
Proof.
  induction l as [|e l IHl]; intros t out Hrun; cbn [run app] in *.
  - injection Hrun as <-. cbn [handle].
    destruct (handlePointerUp t); reflexivity.
  - destruct (handle e t); try discriminate. apply IHl. exact Hrun.
Qed.


End Steps.

(** X6.  A pointer move that goes through changes nothing but the box at the
    active index: every other box, the selection, the zoom and the gesture
    state stay as they are, and so does the number of boxes, except that a
    move with the active index just past the end of the array adds a box. *)
Theorem pointer_move_frame {T : Type} {num : Number T} (s s' : Session T)
  (clientX clientY : T) (container : option (DOMRect T)) :
  handlePointerMove clientX clientY container s = Next s' ->
  (forall k, activeBoxIndex s <> Some k ->
             nth_error (boxes s') k = nth_error (boxes s) k) /\
  (length (boxes s') = length (boxes s) \/
   (activeBoxIndex s = Some (length (boxes s)) /\
    length (boxes s') = S (length (boxes s)))) /\
  (tracking s -> length (boxes s') = length (boxes s)) /\
  selectedBoxIndex s' = selectedBoxIndex s /\
  scale s' = scale s /\
  activeBoxIndex s' = activeBoxIndex s /\
  interactionMode s' = interactionMode s /\
  startBoxState s' = startBoxState s /\
  initialBoxes s' = initialBoxes s.
Proof.
  intro Hmove. rewrite <- (setBoxes_same s) in Hmove.
  destruct (pointer_move_cases s) as [Hidle|(j & snap & Hj & Hb & Hcases)].
  - rewrite Hidle, setBoxes_same in Hmove. injection Hmove as <-.
    split; [reflexivity|]. split; [left; reflexivity|].
    repeat split; reflexivity.
  - destruct (Hcases clientX clientY) as (Hnone & Hsome).
    destruct container as [rect|].
    + destruct (Hsome rect) as (v1 & v2 & v3 & v4 & Hupd).
      rewrite Hupd, setBoxes_same in Hmove.
      destruct (updateBox_frame s s' j _ Hmove)
        as (Hother & Hlen & Hin & Hsel & Hsc & Hact & Hmode & _ & _ & Hsnap
            & Hinit).
      split; [intros k Hk; apply Hother; congruence|].
      split.
      { destruct Hlen as [Hlen|(Hjl & Hlen)]; [left; exact Hlen|right].
        split; [congruence|exact Hlen]. }
      split; [intro Htrack; apply Hin; exact (Htrack j snap Hj Hb)|].
      repeat split; assumption.
    + rewrite Hnone, setBoxes_same in Hmove. injection Hmove as <-.
      split; [reflexivity|]. split; [left; reflexivity|].
      repeat split; reflexivity.
Qed.

Lemma pointer_move_frame_witness :
  exists s',
    handlePointerMove (float_lit 2000) (float_lit (-2000)) rect300
      resizingFloat = Next s' /\
    selectedBoxIndex s' = Some 0%nat.
Proof.
  destruct (handlePointerMove (float_lit 2000) (float_lit (-2000)) rect300
              resizingFloat) as [s'|m| |] eqn:E;
    [|vm_compute in E; discriminate..].
  exists s'. split; [reflexivity|].
  destruct (pointer_move_frame _ _ _ _ _ E) as (_ & _ & _ & Hsel & _).
  exact Hsel.
Defined.

(** X7.  Within a gesture only the latest pointer position counts: the box
    is recomputed from the snapshot taken at pointer down, so a pointer move
    (with the container mounted) after another gives the state the second
    move alone gives; rounding errors do not add up from one pointer move to
    the next. *)
Theorem pointer_move_latest {T : Type} {num : Number T} (s s1 : Session T)
  (x1 y1 x2 y2 : T) (c1 : option (DOMRect T)) (rect2 : DOMRect T) :
  handlePointerMove x1 y1 c1 s = Next s1 ->
  handlePointerMove x2 y2 (Some rect2) s1
  = handlePointerMove x2 y2 (Some rect2) s.
Proof.
  intro H1. rewrite <- (setBoxes_same s) in H1.
  destruct (pointer_move_cases s) as [Hidle|(j & snap & Hj & Hb & Hcases)].
  - rewrite Hidle, setBoxes_same in H1. injection H1 as <-. reflexivity.
  - destruct (Hcases x1 y1) as (Hnone & Hsome).
    destruct c1 as [rect1|].
    + destruct (Hsome rect1) as (w1 & w2 & w3 & w4 & Hupd1).
      rewrite Hupd1, setBoxes_same in H1.
      destruct (Hcases x2 y2) as (_ & Hsome2).
      destruct (Hsome2 rect2) as (v1 & v2 & v3 & v4 & Hupd2).
      destruct (updateBox_twice s s1 j _ v1 v2 v3 v4 H1) as (Es1 & Htwice).
      pose proof (Hupd2 (boxes s1)) as A. rewrite <- Es1 in A.
      pose proof (Hupd2 (boxes s)) as B. rewrite setBoxes_same in B.
      rewrite A, B. exact Htwice.
    + rewrite Hnone, setBoxes_same in H1. injection H1 as <-. reflexivity.
Qed.

Lemma pointer_move_latest_witness :
  exists s1,
    handlePointerMove (float_lit 2000) (float_lit (-2000)) rect300
      resizingFloat = Next s1 /\
    handlePointerMove (float_lit 30) (float_lit 40) rect300 s1
    = handlePointerMove (float_lit 30) (float_lit 40) rect300 resizingFloat.
Proof.
  destruct (handlePointerMove (float_lit 2000) (float_lit (-2000)) rect300
              resizingFloat) as [s1|m| |] eqn:E;
    [|vm_compute in E; discriminate..].
  exists s1. split; [reflexivity|].
  match goal with
  | |- context [rect300] =>
      change rect300 with (Some {| rect_width := float_lit 300;
                                   rect_height := float_lit 300 |}) in *
  end.
  exact (pointer_move_latest _ _ _ _ _ _ _ _ E).
Defined.

(** X8.  A whole gesture - pointer down on the body or on a handle of box
    [i], any number of pointer moves, pointer up - always runs through, from
    any state: it ends with no active box, no interaction mode, box [i]
    selected and as many boxes as before. *)
Theorem gesture_selects {T : Type} {num : Number T} (s : Session T)
  (start : Event T) (moves : list (Event T)) (i : nat) :
  startIndex start = Some i ->
  Forall isPointerMove moves ->
  exists s',
    run (start :: moves ++ [PointerUp]) s = Next s' /\
    selectedBoxIndex s' = Some i /\
    activeBoxIndex s' = None /\
    interactionMode s' = None /\
    length (boxes s') = length (boxes s).
Proof.
  intros Hstart Hmoves.
  assert (H1 : exists s1,
             handle start s = Next s1 /\ tracking s1 /\
             selectedBoxIndex s1 = Some i /\
             length (boxes s1) = length (boxes s)).
  { destruct start; cbn [startIndex] in Hstart; try discriminate;
      injection Hstart as ->; eexists; (split; [reflexivity|]);
      (split; [|split; reflexivity]);
      intros j b [= <-] Hb; apply nth_error_Some; cbn in Hb |- *; congruence. }
  destruct H1 as (s1 & E1 & Htrack & Hsel1 & Hlen1).
  destruct (pointer_moves_run moves Hmoves s1 Htrack)
    as (s2 & E2 & Hsel2 & Hlen2).
  eexists. cbn [run]. rewrite E1, (run_then_up moves s1 s2 E2).
  split; [reflexivity|]. cbn. repeat split; congruence.
Qed.

Lemma gesture_selects_witness :
  exists s',
    run (ResizeStart 0 "se" (float_lit 5) (float_lit 5)
           :: [PointerMove (float_lit 9) (float_lit 9) rect300;
               PointerMove (float_lit 1) (float_lit 1) None]
           ++ [PointerUp])
      (initialSession [floatBox 100 100 300 400; floatBox 0 990 500 1000])
    = Next s' /\
    selectedBoxIndex s' = Some 0%nat /\
    activeBoxIndex s' = None.
Proof.
  destruct (gesture_selects
              (initialSession
                 [floatBox 100 100 300 400; floatBox 0 990 500 1000])
              (ResizeStart 0 "se" (float_lit 5) (float_lit 5))
              [PointerMove (float_lit 9) (float_lit 9) rect300;
               PointerMove (float_lit 1) (float_lit 1) None]
              0)
    as (s' & E & Hsel & Hact & _).
  - reflexivity.
  - repeat constructor.
  - exists s'. repeat split; assumption.
Defined.



(** X10.  Selecting the last box, deleting a box in front of it and pressing
    the sync button throws: the selection still holds the old index, which
    is now past the end of the array, so the source box is [undefined]. *)
Theorem sync_throws_after_delete {T : Type} {num : Number T}
  (initial : list (Box T)) (selected index : nat) (clientX clientY : T) :
  S selected = length initial ->
  (index < selected)%nat ->
  run [MoveStart selected clientX clientY; PointerUp; DeleteBox index; SyncSize]
    (initialSession initial)
  = Throws "TypeError".
Proof.
  intros Hlast Hlt. cbn [run handle handleMoveStart handlePointerUp].
  unfold handleDeleteBox. cbn [selectedBoxIndex].
  destruct (Nat.eqb_spec selected index) as [E|_]; [lia|].
  cbn [run handle]. unfold handleSyncSize, initialSession.
  cbn [selectedBoxIndex boxes setBoxes].
  rewrite filteri_drop, nth_error_drop_after by lia.
  assert (Hnone : nth_error initial (S selected) = None)
    by (apply nth_error_None; lia).
  rewrite Hnone. reflexivity.
Qed.

Lemma sync_throws_after_delete_witness :
  run [MoveStart 1 (float_lit 0) (float_lit 0); PointerUp; DeleteBox 0;
       SyncSize]
    (initialSession [floatBox 100 100 300 400; floatBox 0 990 500 1000])
  = Throws "TypeError".
Proof.
  apply (sync_throws_after_delete
           [floatBox 100 100 300 400; floatBox 0 990 500 1000] 1 0
           (float_lit 0) (float_lit 0)).
  - reflexivity.
  - lia.
Defined.

End NumericLaws.
